(** * nengo_mpi: the per-step execution engine, embedded in Rocq

    The development follows the C++ sources:
    - [mpi_sim/mpi_operator.cpp]: [MPISend], [MPIRecv], [MPIBarrier];
    - [mpi_sim/python.cpp]: the numpy bridge and the [PyFunc] operator;
    - the chunk header (operator ordering, [compare_op_ptr],
      [FLUSH_PROBES_EVERY]);
    - the simulator ([MpiSimulator::reset]) and the worker build loop
      ([start_worker]).

    The first part holds the data model and the operations, the second part
    the properties proved about them. *)

From Stdlib Require Import Ascii String.
From Stdlib Require Import ZArith List Bool Lia Permutation Sorted.
From Stdlib Require Import SpecFloat.
Import ListNotations.

Set Implicit Arguments.
Set Warnings "-register-all".

Local Open Scope Z_scope.

(* ================================================================== *)
(** * Part I. Data model and operations                                 *)
(* ================================================================== *)

(** ** Numeric element types

    [dtype] is the element type of every signal.  Its typedef is not part of
    the sources at hand; [mpi_operator.cpp] transmits it as [MPI_DOUBLE], so
    it is IEEE binary64.  Values are represented by the Standard Library's
    [spec_float]. *)

Definition double : Type := spec_float.
Definition float : Type := spec_float.
Definition dtype : Type := double.

(** C++ conversion [double -> float]: round to nearest even in binary32
    (24 bits of precision, infinities at exponent 128). *)
Definition float_of_double (x : double) : float :=
  match x with
  | S754_finite s m e => binary_round 24 128 s m e
  | _ => x
  end.

(** C++ conversion [float -> double]: exact, the value is re-normalised to
    the binary64 representation. *)
Definition double_of_float (x : float) : double :=
  match x with
  | S754_finite s m e => binary_round 53 1024 s m e
  | _ => x
  end.

(** A [double] that is narrowed to [float] and widened again: what a value
    becomes when it is extracted as [float] and stored as [dtype]. *)
Definition through_float (x : double) : dtype :=
  double_of_float (float_of_double x).

(** The [<] of C++ on floating-point values (false as soon as one side is a
    NaN). *)
Definition float_lt (x y : float) : bool := SFltb x y.

Definition is_nan (x : spec_float) : bool :=
  match x with S754_nan => true | _ => false end.

(** Where a value that is not a NaN stands in the order of [float_lt]:
    the class (negative infinity, negative, zero, positive, positive
    infinity), then exponent and mantissa, mirrored for negative values. *)
Definition float_key (x : spec_float) : Z * Z * Z :=
  match x with
  | S754_infinity true => (-2, 0, 0)
  | S754_finite true m e => (-1, - e, - Z.pos m)
  | S754_zero _ => (0, 0, 0)
  | S754_nan => (0, 0, 0)
  | S754_finite false m e => (1, e, Z.pos m)
  | S754_infinity false => (2, 0, 0)
  end.

Definition lex_lt (a b : Z * Z * Z) : Prop :=
  let '(a1, a2, a3) := a in
  let '(b1, b2, b3) := b in
  a1 < b1 \/ (a1 = b1 /\ (a2 < b2 \/ (a2 = b2 /\ a3 < b3))).

(** A few literals, obtained by rounding [m * 2^e]. *)
Definition dbl (m e : Z) : double := binary_normalize 53 1024 m e false.
Definition flt (m e : Z) : float := binary_normalize 24 128 m e false.

(** [memcpy(dst, src, n * sizeof(dtype))]: the first [n] elements of [dst]
    are overwritten with the first [n] elements of [src]. *)
Definition memcpy (dst src : list dtype) (n : nat) : list dtype :=
  firstn n src ++ skipn n dst.

(** ** The MPI calls made by the operators

    The operators of [mpi_operator.cpp] call four MPI primitives.  Each
    operator returns the list of calls it made, in order. *)
Inductive mpi_call : Type :=
| CallWait
| CallIsend (dst tag : Z) (payload : list dtype)
| CallIrecv (src tag : Z)
| CallBarrier.

(** State of an [MPI_Request] handle as seen by its owner. *)
Inductive Request : Type :=
| REQUEST_NULL   (* no operation in flight *)
| Posted         (* an operation was started and has not completed yet *)
| Complete.      (* the operation has completed; a wait returns at once *)

(** ** [MPISend] *)
Module MPISend.

Record t : Type := mk {
  dst : Z;
  tag : Z;
  size : nat;
  buffer : list dtype;
  first_call : bool;
  request : Request
}.

(** [MPISend::MPISend(dst, tag, content)], [content] being the elements of
    the content view: [size] is their number, [buffer = new dtype[size]].
    The constructor also keeps [content_data], the address of element 0 of
    the storage of the base signal of the view. *)
Definition create (dst tag : Z) (content : list dtype) : t :=
  {| dst := dst; tag := tag; size := length content;
     buffer := repeat (S754_zero false) (length content);
     first_call := true; request := REQUEST_NULL |}.

(** [MPISend::operator()].  [content] is the data [content_data] points
    to: the storage of the base signal of the view, from its element 0 on,
    of which the operator copies [size] elements (these are the elements of
    the view when the view covers its base signal from element 0 on).
    [wire] holds the messages sent on (dst, tag) and not yet received,
    oldest first.  A wait on a send request is taken to return: the
    transport may complete a send as soon as it has buffered the message. *)
Definition call (op : t) (content : list dtype) (wire : list (list dtype))
  : t * list (list dtype) * list mpi_call :=
  let waits := if first_call op then [] else [CallWait] in
  let buffer' := memcpy (buffer op) content (size op) in
  let payload := firstn (size op) buffer' in
  ({| dst := dst op; tag := tag op; size := size op;
      buffer := buffer'; first_call := false; request := Posted |},
   wire ++ [payload],
   waits ++ [CallIsend (dst op) (tag op) payload]).

End MPISend.

(** ** [MPIRecv] *)
Module MPIRecv.

Record t : Type := mk {
  src : Z;
  tag : Z;
  size : nat;
  buffer : list dtype;
  first_call : bool;
  request : Request
}.

Definition create (src tag : Z) (content : list dtype) : t :=
  {| src := src; tag := tag; size := length content;
     buffer := repeat (S754_zero false) (length content);
     first_call := true; request := REQUEST_NULL |}.

(** [MPIRecv::operator()].  [content] is the data [content_data] points
    to, as for [MPISend].  Returns [None] when [MPI_Wait] cannot return
    yet (the posted receive has not been matched by a message): the
    process stays blocked in the call.  Otherwise returns the operator,
    the data at [content_data] and the calls made. *)
Definition call (op : t) (content : list dtype)
  : option (t * list dtype * list mpi_call) :=
  if first_call op then
    Some ({| src := src op; tag := tag op; size := size op;
             buffer := buffer op; first_call := false; request := Posted |},
          content,
          [CallIrecv (src op) (tag op)])
  else
    match request op with
    | Posted => None
    | _ =>
      Some ({| src := src op; tag := tag op; size := size op;
               buffer := buffer op; first_call := false; request := Posted |},
            memcpy content (buffer op) (size op),
            [CallWait; CallIrecv (src op) (tag op)])
    end.

(** The transport completes a posted receive: the oldest message on the
    wire is written into [buffer] (messages between one pair of processes
    with one tag do not overtake each other). *)
Definition deliver (op : t) (wire : list (list dtype))
  : option (t * list (list dtype)) :=
  match request op, wire with
  | Posted, m :: wire' =>
    Some ({| src := src op; tag := tag op; size := size op;
             buffer := memcpy (buffer op) m (size op);
             first_call := first_call op; request := Complete |},
          wire')
  | _, _ => None
  end.

End MPIRecv.

(** ** A matched send/receive pair

    Two chunks run in two processes.  The sending chunk owns the content view
    of an [MPISend] whose (dst, tag) names the receiving chunk, which owns the
    content view of the matching [MPIRecv].  The worlds of this module hold,
    for each of the two views, the block of [size] elements at
    [content_data] that the operator copies; the block is the view when the
    view covers its base signal from element 0 on, as the view of a whole
    signal does ([ViewLink] below has the views of the general case).
    Each chunk runs its operator list
    once per step; on the sending chunk the operators writing the view come
    before the send, on the receiving chunk the operators reading the view
    come after the receive.  The processes are not synchronised with each
    other except through the messages: any interleaving of their steps is
    possible. *)
Module Link.

Record World : Type := mk {
  sender : MPISend.t;
  send_view : list dtype;       (* the block at content_data on the sending chunk *)
  sent : list (list dtype);     (* history: that block when the send ran, per step *)
  wire : list (list dtype);     (* messages in flight, oldest first *)
  receiver : MPIRecv.t;
  recv_view : list dtype;       (* the block at content_data on the receiving chunk *)
  seen : list (list dtype)      (* history: that block as handed to the
                                   operators after the receive, per step *)
}.

(** Both chunks right after the build: [x0] and [y0] are the initial values
    of the two blocks. *)
Definition init (dst src tag : Z) (x0 y0 : list dtype) : World :=
  {| sender := MPISend.create dst tag x0; send_view := x0; sent := [];
     wire := [];
     receiver := MPIRecv.create src tag y0; recv_view := y0; seen := [] |}.

(** One step of the sending chunk: the upstream operators leave [v] in the
    block, then [MPISend::operator()] runs. *)
Definition sender_step (v : list dtype) (w : World) : World :=
  let '(op', wire', _) := MPISend.call (sender w) v (wire w) in
  {| sender := op'; send_view := v; sent := sent w ++ [v];
     wire := wire';
     receiver := receiver w; recv_view := recv_view w; seen := seen w |}.

(** One step of the receiving chunk: [MPIRecv::operator()] runs, then the
    downstream operators read the block. *)
Definition receiver_step (w : World) : option World :=
  match MPIRecv.call (receiver w) (recv_view w) with
  | Some (op', view', _) =>
    Some {| sender := sender w; send_view := send_view w; sent := sent w;
            wire := wire w;
            receiver := op'; recv_view := view'; seen := seen w ++ [view'] |}
  | None => None
  end.

(** The transport hands the oldest message to the posted receive. *)
Definition deliver_step (w : World) : option World :=
  match MPIRecv.deliver (receiver w) (wire w) with
  | Some (op', wire') =>
    Some {| sender := sender w; send_view := send_view w; sent := sent w;
            wire := wire';
            receiver := op'; recv_view := recv_view w; seen := seen w |}
  | None => None
  end.

Inductive step : World -> World -> Prop :=
| step_sender w v :
    length v = MPISend.size (sender w) ->
    step w (sender_step v w)
| step_receiver w w' :
    receiver_step w = Some w' ->
    step w w'
| step_deliver w w' :
    deliver_step w = Some w' ->
    step w w'.

Inductive reachable (w0 : World) : World -> Prop :=
| reach_init : reachable w0 w0
| reach_step w w' : reachable w0 w -> step w w' -> reachable w0 w'.

(** A schedule in which both chunks advance in lockstep: in every round the
    sending chunk steps with the next value, the receiving chunk steps, and
    the transport delivers. *)
Definition lockstep_round (v : list dtype) (w : World) : option World :=
  match receiver_step (sender_step v w) with
  | Some w2 => deliver_step w2
  | None => None
  end.

Fixpoint lockstep (vals : list (list dtype)) (w : World) : option World :=
  match vals with
  | [] => Some w
  | v :: vals' =>
    match lockstep_round v w with
    | Some w' => lockstep vals' w'
    | None => None
    end
  end.

(** The invariant of a link whose views hold [n] elements and whose receive
    view initially holds [y0].  [taken] counts the messages the transport
    has handed to the receiver so far. *)
Definition receiver_phase (w : World) (taken : nat) : Prop :=
  match MPIRecv.first_call (receiver w), MPIRecv.request (receiver w) with
  | true, REQUEST_NULL => seen w = [] /\ taken = 0%nat
  | true, _ => False
  | false, Posted => length (seen w) = S taken
  | false, Complete =>
    length (seen w) = taken /\
    exists k, taken = S k /\
              nth_error (sent w) k = Some (MPIRecv.buffer (receiver w))
  | false, REQUEST_NULL => False
  end.

Record Inv (n : nat) (y0 : list dtype) (w : World) : Prop := {
  inv_ssize : MPISend.size (sender w) = n;
  inv_sbuf : length (MPISend.buffer (sender w)) = n;
  inv_rsize : MPIRecv.size (receiver w) = n;
  inv_rbuf : length (MPIRecv.buffer (receiver w)) = n;
  inv_view : length (recv_view w) = n;
  inv_sent : Forall (fun v => length v = n) (sent w);
  inv_seen : seen w = firstn (length (seen w)) (y0 :: sent w);
  inv_cur : recv_view w = last (seen w) y0;
  inv_wire : exists taken,
      (taken <= length (sent w))%nat /\
      wire w = skipn taken (sent w) /\
      receiver_phase w taken
}.

End Link.

(** ** [MPIBarrier]

    [step] is a C++ [int]; the increment wraps around in two's complement and
    [%] truncates towards zero ([Z.rem]).  [BARRIER_PERIOD] is a constant of
    the operator's header, which is not among the sources at hand: it is a
    parameter here. *)
Definition INT_MAX : Z := 2147483647.

Definition wrap_int (z : Z) : Z := (z + 2 ^ 31) mod 2 ^ 32 - 2 ^ 31.

Module MPIBarrier.

Record t : Type := mk { step : Z }.

(** A barrier operator that has not run yet. *)
Definition create : t := {| step := 0 |}.

Section WithPeriod.

Variable BARRIER_PERIOD : Z.

(** The guard of [MPIBarrier::operator()]:
    [step != 0 && step % BARRIER_PERIOD == 0]. *)
Definition due (step : Z) : bool :=
  negb (step =? 0) && (Z.rem step BARRIER_PERIOD =? 0).

(** [MPIBarrier::operator()]. *)
Definition call (op : t) : t * list mpi_call :=
  let calls := if due (step op) then [CallBarrier] else [] in
  ({| step := wrap_int (step op + 1) |}, calls).

(** What the [i]-th of a row of invocations does when the counter is at
    [s] before the first of them. *)
Definition nth_calls (s : Z) (i : nat) : list mpi_call :=
  if due (s + Z.of_nat i) then [CallBarrier] else [].

(** [n] invocations in a row, with the calls of each. *)
Fixpoint call_n (n : nat) (op : t) : t * list (list mpi_call) :=
  match n with
  | O => (op, [])
  | S n' =>
    let '(op1, c) := call op in
    let '(op2, cs) := call_n n' op1 in
    (op2, c :: cs)
  end.

End WithPeriod.

(** Number of barriers among the invocations [a], ..., [a + len - 1] of a
    sequence of invocations. *)
Definition barriers_in (calls : list (list mpi_call)) (a len : nat) : nat :=
  length (concat (firstn len (skipn a calls))).

End MPIBarrier.

(** ** The Python bridge ([python.cpp])

    Python objects as the bridge meets them: numbers, lists, numpy arrays and
    objects that are neither numbers nor sequences.  [PyFloat x] stands for a
    Python [int], [long] or [float] object of value [x], or an object of a
    subclass of these, as the elements of an array of doubles are.  A numpy
    array (of doubles) is given by its shape and its elements in C order.
    The functions [extract_float] and
    [getitem] describe [boost::python::extract<float>] and [operator[]] on
    [boost::python::object]: both throw [error_already_set], carrying a Python
    error, when Python refuses the operation. *)
Module Python.

Record ndarray : Type := mk_ndarray {
  shape : list nat;
  data : list double
}.

Inductive object : Type :=
| PyFloat (x : double)
| PyList (items : list object)
| PyArray (a : ndarray)
| PyNone.

Inductive py_error : Type := TypeError | IndexError.

Inductive result (A : Type) : Type :=
| Ok (a : A)
| Raise (e : py_error)
| Undefined.      (* a read or write past the end of a C++ container *)

Arguments Ok {A} a.
Arguments Raise {A} e.
Arguments Undefined {A}.

Definition bind {A B : Type} (r : result A) (k : A -> result B) : result B :=
  match r with
  | Ok a => k a
  | Raise e => Raise e
  | Undefined => Undefined
  end.

Notation "x <- c1 ;; c2" := (bind c1 (fun x => c2))
  (at level 61, c1 at next level, right associativity).

(** Runs [f] on the elements of [l] from left to right and stops at the first
    failure. *)
Fixpoint mapM {A B : Type} (f : A -> result B) (l : list A) : result (list B) :=
  match l with
  | [] => Ok []
  | x :: l' => y <- f x ;; ys <- mapM f l' ;; Ok (y :: ys)
  end.

Definition ndim (a : ndarray) : nat := length (shape a).
Definition size (a : ndarray) : nat := fold_right Nat.mul 1%nat (shape a).

(** A numpy array holds as many elements as its shape says. *)
Definition well_formed (a : ndarray) : Prop := length (data a) = size a.

(** [extract<float>(o)]: the converter of Boost.Python accepts the Python
    number objects ([int], [long], [float] and their subclasses), takes
    their value as a C++ double and narrows it to [float]; any other object,
    a numpy array of whatever size included, is refused with [TypeError]. *)
Definition extract_float (o : object) : result float :=
  match o with
  | PyFloat x => Ok (float_of_double x)
  | PyArray _ => Raise TypeError
  | PyList _ => Raise TypeError
  | PyNone => Raise TypeError
  end.

(** [o[i]]. Indexing the last axis of an array gives a number, indexing
    another axis gives the sub-array. *)
Definition getitem (o : object) (i : nat) : result object :=
  match o with
  | PyList items =>
    match nth_error items i with
    | Some x => Ok x
    | None => Raise IndexError
    end
  | PyArray a =>
    match shape a with
    | [] => Raise IndexError
    | n :: rest =>
      if (i <? n)%nat then
        let len := fold_right Nat.mul 1%nat rest in
        let sub := firstn len (skipn (i * len) (data a)) in
        match rest, sub with
        | [], [x] => Ok (PyFloat x)
        | _, _ => Ok (PyArray {| shape := rest; data := sub |})
        end
      else Raise IndexError
    end
  | PyFloat _ => Raise TypeError
  | PyNone => Raise TypeError
  end.

Definition Vector : Type := list dtype.
Definition Matrix : Type := list (list dtype).   (* the rows *)

(** [is_vector]. *)
Definition is_vector (a : ndarray) : bool := (ndim a =? 1)%nat.

(** [ndarray_to_vector]: [ret(i) = bpy::extract<float>(a[i])] for
    [i < size]; the extracted [float] widens to the [dtype] of the vector. *)
Definition ndarray_to_vector (a : ndarray) : result Vector :=
  mapM (fun i => o <- getitem (PyArray a) i ;;
                 f <- extract_float o ;;
                 Ok (double_of_float f))
       (seq 0 (size a)).

(** [ndarray_to_matrix]: reads [shape[0]] and [shape[1]] out of a vector of
    [ndim] entries, then [ret(i, j) = bpy::extract<float>(a[i][j])]. *)
Definition ndarray_to_matrix (a : ndarray) : result Matrix :=
  match shape a with
  | shape0 :: shape1 :: _ =>
    mapM (fun i =>
      mapM (fun j => row <- getitem (PyArray a) i ;;
                     o <- getitem row j ;;
                     f <- extract_float o ;;
                     Ok (double_of_float f))
           (seq 0 shape1))
      (seq 0 shape0)
  | _ => Undefined
  end.

(** What [PythonMpiSimulatorChunk::add_signal] hands to the chunk. *)
Inductive signal : Type :=
| vector_signal (key : Z) (vec : Vector)
| matrix_signal (key : Z) (mat : Matrix).

Definition add_signal (key : Z) (sig : ndarray) : result signal :=
  if is_vector sig then
    vec <- ndarray_to_vector sig ;; Ok (vector_signal key vec)
  else
    mat <- ndarray_to_matrix sig ;; Ok (matrix_signal key mat).

(** *** [PyFunc]

    How a call of the operator ends: normally, with a Python error
    propagating out of it, or undefined. *)
Inductive outcome : Type :=
| Normal
| Raised (e : py_error)
| Undef.

(** The loop of the [catch] branch,
    [for(i = 0; i < output->size(); ++i) output[i] = extract<float>(py_output[i])],
    from index [i] on: [done] holds the elements already written, [rest] the
    elements of the output not reached yet. *)
Fixpoint write_back (py_output : object) (i : nat) (done rest : Vector)
  : Vector * outcome :=
  match rest with
  | [] => (done, Normal)
  | _ :: rest' =>
    match bind (getitem py_output i) extract_float with
    | Ok f => write_back py_output (S i) (done ++ [double_of_float f]) rest'
    | Raise e => (done ++ rest, Raised e)
    | Undefined => (done ++ rest, Undef)
    end
  end.

(** The [try]/[catch] of [PyFunc::operator()], given the object the callback
    returned: returns the output vector and how the call ended. *)
Definition store_output (output : Vector) (py_output : object) : Vector * outcome :=
  match extract_float py_output with
  | Ok f =>
    match output with
    | [] => (output, Undef)
    | _ :: rest => (double_of_float f :: rest, Normal)
    end
  | Raise _ => write_back py_output 0 [] output
  | Undefined => (output, Undef)
  end.

Record PyFunc : Type := mk_PyFunc {
  py_fn : list object -> result object;   (* the callback *)
  supply_time : bool;
  supply_input : bool;
  py_input : list double                  (* the numpy vector handed to the callback *)
}.

(** [py_input[i] = input[i]] for [i < input->size()]: the array as the loop
    leaves it, and how the loop ends ([IndexError] when the array is shorter
    than the input). *)
Fixpoint fill_input (py_input : list double) (input : Vector)
  : list double * outcome :=
  match input, py_input with
  | [], _ => (py_input, Normal)
  | x :: input', _ :: py_input' =>
    let '(filled, how) := fill_input py_input' input' in (x :: filled, how)
  | _ :: _, [] => ([], Raised IndexError)
  end.

(** The first part of [PyFunc::operator()]: [if(supply_input)], the input is
    copied into the array. *)
Definition prepare_input (op : PyFunc) (input : Vector) : list double * outcome :=
  if supply_input op then fill_input (py_input op) input
  else (py_input op, Normal).

(** The arguments of the callback: the time if it is wanted, then the input
    array if there is one. *)
Definition callback_args (op : PyFunc) (time : double) (py_in : list double)
  : list object :=
  (if supply_time op then [PyFloat time] else [])
  ++ (if supply_input op
      then [PyArray {| shape := [length py_in]; data := py_in |}] else []).

(** [PyFunc::operator()].  [time], [input] and [output] are the values behind
    the operator's pointers.  An error raised while the input is copied or by
    the callback itself propagates before the output is touched. *)
Definition call (op : PyFunc) (time : double) (input output : Vector)
  : PyFunc * Vector * outcome :=
  let '(py_in, filled) := prepare_input op input in
  let op' := {| py_fn := py_fn op; supply_time := supply_time op;
                supply_input := supply_input op; py_input := py_in |} in
  match filled with
  | Normal =>
    match py_fn op (callback_args op time py_in) with
    | Ok py_output =>
      let '(output', how) := store_output output py_output in
      (op', output', how)
    | Raise e => (op', output, Raised e)
    | Undefined => (op', output, Undef)
    end
  | how => (op', output, how)
  end.


(** [holds o xs]: the returned object is a sequence of the numbers [xs], as a
    Python list or as a one-dimensional numpy array. *)
Definition holds (o : object) (xs : list double) : Prop :=
  o = PyList (map PyFloat xs) \/
  o = PyArray {| shape := [length xs]; data := xs |}.

(** An operator whose callback takes no argument and returns [o]. *)
Definition returning (o : object) : PyFunc :=
  {| py_fn := fun _ => Ok o; supply_time := false; supply_input := false;
     py_input := [] |}.


End Python.

(** ** The chunk

    The chunk header declares the members and [compare_op_ptr]; the bodies of
    the chunk's functions (its .cpp file), the operators and the probes are
    not among the sources at hand.  Their models below follow the
    specification and say so. *)
Module Chunk.

Definition key_type : Type := Z.

(** [map<key_type, Signal>]: the data of each base signal. *)
Definition signal_map_t : Type := list (key_type * list dtype).

Fixpoint lookup {A : Type} (key : key_type) (m : list (key_type * A)) : option A :=
  match m with
  | [] => None
  | (k, v) :: m' => if k =? key then Some v else lookup key m'
  end.

Fixpoint update {A : Type} (key : key_type) (v : A) (m : list (key_type * A))
  : list (key_type * A) :=
  match m with
  | [] => [(key, v)]
  | (k, w) :: m' => if k =? key then (k, v) :: m' else (k, w) :: update key v m'
  end.

(** Modelled from the spec: the SignalView of section 3, a strided window
    [{base_key, shape1, shape2, stride1, stride2, offset}] into a base signal
    (the resolution of views is in the chunk's .cpp file).  Element (i, j) of
    the view is element [offset + i * stride1 + j * stride2] of the base. *)
Record SignalView : Type := mk_view {
  base_key : key_type;
  shape1 : nat;
  shape2 : nat;
  stride1 : Z;
  stride2 : Z;
  offset : Z
}.

Definition view_positions (v : SignalView) : list Z :=
  flat_map (fun i => map (fun j => offset v + Z.of_nat i * stride1 v
                                   + Z.of_nat j * stride2 v)
                         (seq 0 (shape2 v)))
           (seq 0 (shape1 v)).

(** The elements a view presents, in row order.  The chunk invariant makes
    every view resolve in bounds; a position outside the base reads as 0. *)
Definition read_view (signals : signal_map_t) (v : SignalView) : list dtype :=
  match lookup (base_key v) signals with
  | Some base =>
    map (fun p => nth (Z.to_nat p) base (S754_zero false)) (view_positions v)
  | None => []
  end.

Fixpoint set_nth (n : nat) (x : dtype) (l : list dtype) : list dtype :=
  match n, l with
  | _, [] => []
  | O, _ :: l' => x :: l'
  | S n', y :: l' => y :: set_nth n' x l'
  end.

(** Writes [vals] through the view, element by element. *)
Definition write_view (signals : signal_map_t) (v : SignalView) (vals : list dtype)
  : signal_map_t :=
  match lookup (base_key v) signals with
  | Some base =>
    update (base_key v)
           (fold_left (fun b pv => set_nth (Z.to_nat (fst pv)) (snd pv) b)
                      (combine (view_positions v) vals) base)
           signals
  | None => signals
  end.

(** Modelled from the spec: the Operator of section 3, [{index: float,
    step(): void}], a step-callable that mutates the signals it references
    (the operator classes are in files not at hand). *)
Record Operator : Type := mk_op {
  get_index : float;
  step : signal_map_t -> signal_map_t
}.

(** Modelled from the spec: Reset(dst, value) of section 4.2, "set every
    element of dst to value". *)
Definition Reset (index : float) (dst : SignalView) (value : dtype) : Operator :=
  {| get_index := index;
     step := fun signals =>
       write_view signals dst (repeat value (length (view_positions dst))) |}.

(** Modelled from the spec: Copy(dst, src) of section 4.2, "element-wise
    assignment". *)
Definition Copy (index : float) (dst src : SignalView) : Operator :=
  {| get_index := index;
     step := fun signals => write_view signals dst (read_view signals src) |}.

(** [compare_op_ptr], from the chunk header:
    [left->get_index() < right->get_index()]. *)
Definition compare_op_ptr (left right : Operator) : bool :=
  float_lt (get_index left) (get_index right).

(** Two operators whose indices are equal for the comparison: neither is
    less than the other. *)
Definition same_index (a b : Operator) : bool :=
  negb (compare_op_ptr a b) && negb (compare_op_ptr b a).

(** [a] may run before [b]: [b] is not less than [a]. *)
Definition may_precede (a b : Operator) : Prop := compare_op_ptr b a = false.

(** The index of the operator takes part in the order: it is not a NaN. *)
Definition ordered (op : Operator) : Prop := is_nan (get_index op) = false.

(** Modelled from the spec: "operator specs carry an index allowing builders
    to wedge new ops between existing ones": an operator is placed after the
    operators whose index is not greater than its own. *)
Fixpoint insert_op (op : Operator) (l : list Operator) : list Operator :=
  match l with
  | [] => [op]
  | y :: l' =>
    if compare_op_ptr op y then op :: y :: l' else y :: insert_op op l'
  end.

(** Modelled from the spec: step 1 of finalize_build, "sort operators by
    index ascending (stable)", the comparison being [compare_op_ptr]. *)
Definition stable_sort (l : list Operator) : list Operator :=
  fold_left (fun sorted op => insert_op op sorted) l [].

(** Modelled from the spec: the Probe of sections 3 and 4.5,
    [{target: SignalView, period: int >= 1, buffer: list<Tensor>}]. *)
Record Probe : Type := mk_probe {
  target : SignalView;
  period : Z;
  buffer : list (list dtype)
}.

(** Modelled from the spec: "sample(step): if step mod period == 0, append a
    fresh copy of the current target view into the buffer". *)
Definition sample (signals : signal_map_t) (step : Z) (p : Probe) : Probe :=
  if Z.rem step (period p) =? 0 then
    {| target := target p; period := period p;
       buffer := buffer p ++ [read_view signals (target p)] |}
  else p.

(** Modelled from the spec: "clear(hard): drop everything". *)
Definition clear (p : Probe) : Probe :=
  {| target := target p; period := period p; buffer := [] |}.

(** [FLUSH_PROBES_EVERY], from the chunk header. *)
Definition FLUSH_PROBES_EVERY : Z := 1000.

(** The members of [MpiSimulatorChunk] the step loop works on.  [sim_log]
    holds what was handed to the log sink: (probe key, sample) in the order of
    arrival. *)
Record t : Type := mk {
  dt : dtype;
  time : dtype;
  n_steps : Z;
  signal_map : signal_map_t;
  signal_init_value : signal_map_t;
  operator_list : list Operator;
  probe_map : list (key_type * Probe);
  sim_log : list (key_type * list dtype)
}.

(** Modelled from the spec: add_base_signal, add_op and add_probe of the
    build phase.  The header says of add_op: "the order in which operators
    are added to the chunk determines the order they will be executed in". *)
Definition add_base_signal (key : key_type) (data : list dtype) (c : t) : t :=
  {| dt := dt c; time := time c; n_steps := n_steps c;
     signal_map := signal_map c ++ [(key, data)];
     signal_init_value := signal_init_value c;
     operator_list := operator_list c; probe_map := probe_map c;
     sim_log := sim_log c |}.

Definition add_op (op : Operator) (c : t) : t :=
  {| dt := dt c; time := time c; n_steps := n_steps c;
     signal_map := signal_map c; signal_init_value := signal_init_value c;
     operator_list := operator_list c ++ [op]; probe_map := probe_map c;
     sim_log := sim_log c |}.

Definition add_probe (probe_key : key_type) (v : SignalView) (period : Z) (c : t) : t :=
  {| dt := dt c; time := time c; n_steps := n_steps c;
     signal_map := signal_map c; signal_init_value := signal_init_value c;
     operator_list := operator_list c;
     probe_map := probe_map c
                  ++ [(probe_key, {| target := v; period := period; buffer := [] |})];
     sim_log := sim_log c |}.

(** Modelled from the spec: finalize_build of section 4.3.  The operators
    are sorted by index (stable); the composite operators of the merged plan
    ([merged], empty when merged mode is off) and the barrier are then
    inserted at their index; the initial values are snapshot for reset.
    Binding the communicator does not change the order. *)
Definition finalize_build (merged : list Operator) (barrier : Operator) (c : t) : t :=
  {| dt := dt c; time := time c; n_steps := n_steps c;
     signal_map := signal_map c; signal_init_value := signal_map c;
     operator_list :=
       fold_left (fun sorted op => insert_op op sorted)
                 (merged ++ [barrier]) (stable_sort (operator_list c));
     probe_map := probe_map c; sim_log := sim_log c |}.

(** Modelled from the spec: flush, "move the buffer into the log sink". *)
Definition flush_probes (c : t) : t :=
  {| dt := dt c; time := time c; n_steps := n_steps c;
     signal_map := signal_map c; signal_init_value := signal_init_value c;
     operator_list := operator_list c;
     probe_map := map (fun kp => (fst kp, clear (snd kp))) (probe_map c);
     sim_log := sim_log c
                ++ flat_map (fun kp => map (pair (fst kp)) (buffer (snd kp)))
                            (probe_map c) |}.

(** The operators of one step, in the order of the list. *)
Definition run_operators (ops : list Operator) (signals : signal_map_t) : signal_map_t :=
  fold_left (fun s op => step op s) ops signals.

(** Modelled from the spec: one iteration of the step phase of section 4.3,
    "invoke each operator in order; probes sample; time += dt; if
    (step_counter+1) mod FLUSH_PROBES_EVERY == 0, flush probes". *)
Definition run_step (c : t) : t :=
  let signals := run_operators (operator_list c) (signal_map c) in
  let c1 :=
    {| dt := dt c; time := SFadd 53 1024 (time c) (dt c);
       n_steps := n_steps c + 1;
       signal_map := signals; signal_init_value := signal_init_value c;
       operator_list := operator_list c;
       probe_map := map (fun kp => (fst kp, sample signals (n_steps c) (snd kp)))
                        (probe_map c);
       sim_log := sim_log c |} in
  if Z.rem (n_steps c + 1) FLUSH_PROBES_EVERY =? 0 then flush_probes c1 else c1.

(** Modelled from the spec: run_n_steps(k), "for s = 0..k-1". *)
Fixpoint run_n_steps (k : nat) (c : t) : t :=
  match k with
  | O => c
  | S k' => run_n_steps k' (run_step c)
  end.

(** The samples a probe has collected: those already handed to the log sink,
    then those still in its buffer. *)
Definition collected (probe_key : key_type) (c : t) : list (list dtype) :=
  map snd (filter (fun kv => fst kv =? probe_key) (sim_log c))
  ++ match lookup probe_key (probe_map c) with
     | Some p => buffer p
     | None => []
     end.

(** A chunk as [new_chunk(dt)] gives it. *)
Definition new_chunk (dt : dtype) : t :=
  {| dt := dt; time := S754_zero false; n_steps := 0;
     signal_map := []; signal_init_value := [];
     operator_list := []; probe_map := []; sim_log := [] |}.

(** A barrier operator at index [index]: it does not touch the signals. *)
Definition barrier_op (index : float) : Operator :=
  {| get_index := index; step := fun signals => signals |}.

(** A view of a whole vector signal of [n] elements. *)
Definition whole (key : key_type) (n : nat) : SignalView :=
  {| base_key := key; shape1 := n; shape2 := 1;
     stride1 := 1; stride2 := 1; offset := 0 |}.

End Chunk.

(** ** The simulator ([MpiSimulator])

    The functions below follow the simulator source for component 0, the
    master chunk.  The other components are reached through the MPI interface,
    which is not among the sources at hand: for them the functions return
    [None]. *)
Module Simulator.

Import Chunk.

Record t : Type := mk {
  num_components : Z;
  master_chunk : Chunk.t;
  probe_counts : list (Z * Z);
  probe_data : list (key_type * list (list dtype))
}.

(** [MpiSimulator::MpiSimulator(int num_components, float dt)].  The
    parameter is a [float]: the value the caller passes is narrowed on the
    way in, and widened to [dtype] when it is handed to the master chunk. *)
Definition create (num_components : Z) (dt : double) : t :=
  {| num_components := num_components;
     master_chunk := new_chunk (through_float dt);
     probe_counts := map (fun i => (Z.of_nat i, 0)) (seq 0 (Z.to_nat num_components));
     probe_data := [] |}.

Definition with_chunk (sim : t) (c : Chunk.t) : t :=
  {| num_components := num_components sim; master_chunk := c;
     probe_counts := probe_counts sim; probe_data := probe_data sim |}.

(** [MpiSimulator::add_signal]. *)
Definition add_signal (component : Z) (key : key_type) (data : list dtype) (sim : t)
  : option t :=
  if component =? 0
  then Some (with_chunk sim (add_base_signal key data (master_chunk sim)))
  else None.

(** [MpiSimulator::add_op]. *)
Definition add_op (component : Z) (op : Operator) (sim : t) : option t :=
  if component =? 0
  then Some (with_chunk sim (Chunk.add_op op (master_chunk sim)))
  else None.

(** [MpiSimulator::add_probe]: the probe is on the whole signal;
    [probe_counts[component] += 1; probe_data[probe_key] = vector()]. *)
Definition add_probe (component : Z) (probe_key signal_key : key_type) (period : Z)
  (sim : t) : option t :=
  if component =? 0 then
    match lookup signal_key (signal_map (master_chunk sim)) with
    | Some data =>
      Some {| num_components := num_components sim;
              master_chunk := Chunk.add_probe probe_key
                                (whole signal_key (length data)) period
                                (master_chunk sim);
              probe_counts :=
                update component
                  (match lookup component (probe_counts sim) with
                   | Some k => k + 1
                   | None => 1
                   end) (probe_counts sim);
              probe_data := update probe_key [] (probe_data sim) |}
    | None => None
    end
  else None.

(** The loop of [MpiSimulator::run_n_steps] over the probes of the master
    chunk: [probe_data.at(key)] is extended with the data of the probe
    ([get_data] is in the probe's file, which is not at hand: the data of a
    probe is taken to be its buffer).  [None] when [at] finds no entry. *)
Fixpoint gather (probes : list (key_type * Probe))
  (probe_data : list (key_type * list (list dtype)))
  : option (list (key_type * list (list dtype))) :=
  match probes with
  | [] => Some probe_data
  | (key, p) :: probes' =>
    match lookup key probe_data with
    | Some data => gather probes' (update key (data ++ buffer p) probe_data)
    | None => None
    end
  end.

(** [MpiSimulator::run_n_steps], one component. *)
Definition run_n_steps (steps : nat) (sim : t) : option t :=
  if num_components sim =? 1 then
    let c := Chunk.run_n_steps steps (master_chunk sim) in
    match gather (probe_map c) (probe_data sim) with
    | Some data =>
      Some {| num_components := num_components sim; master_chunk := c;
              probe_counts := probe_counts sim; probe_data := data |}
    | None => None
    end
  else None.

(** [MpiSimulator::get_probe_data]: [probe_data.at(probe_key)]. *)
Definition get_probe_data (probe_key : key_type) (sim : t)
  : option (list (list dtype)) :=
  lookup probe_key (probe_data sim).

(** [MpiSimulator::reset].  The body of the function holds a comment and no
    statement:
    "TODO: Clear probe data; Tell master chunk to reset; Send a signal to
    remote chunks telling them to reset". *)
Definition reset (sim : t) : t := sim.

(** What the specification asks of a reset, on the state at hand: every
    signal back at its initial value, the time at 0, the probe buffers and
    the probe data empty. *)
Definition is_reset (sim : t) : Prop :=
  signal_map (master_chunk sim) = signal_init_value (master_chunk sim) /\
  time (master_chunk sim) = S754_zero false /\
  Forall (fun kp => buffer (snd kp) = []) (probe_map (master_chunk sim)) /\
  Forall (fun kd => snd kd = []) (probe_data sim).

Definition obind {A B : Type} (o : option A) (f : A -> option B) : option B :=
  match o with
  | Some a => f a
  | None => None
  end.

(** Scenario 5 of the specification: signals [a = [9]] (key 1) and
    [b = [0]] (key 2), [Reset(a, 5)] then [Copy(b, a)], a probe on [a];
    the simulator is made with [dt = 0.001], the build is finalized and one
    step is run. *)
Definition scenario_reset_restores : option t :=
  obind (add_signal 0 1 [dbl 9 0] (create 1 (S754_finite false 4611686018427388 (-62))))
    (fun s1 =>
  obind (add_signal 0 2 [S754_zero false] s1) (fun s2 =>
  obind (add_op 0 (Reset (flt 1 0) (whole 1 1) (dbl 5 0)) s2) (fun s3 =>
  obind (add_op 0 (Copy (flt 2 0) (whole 2 1) (whole 1 1)) s3) (fun s4 =>
  obind (add_probe 0 100 1 1 s4) (fun s5 =>
  run_n_steps 1
    (with_chunk s5 (finalize_build [] (barrier_op (S754_infinity false))
                      (master_chunk s5)))))))).

End Simulator.

(** ** The worker's build loop ([start_worker])

    Rank 0 sends the worker a stream of messages on the setup tag; the worker
    receives them one by one with typed receives. *)
Module Worker.

Inductive message : Type :=
| MInt (z : Z)
| MFloat (x : float)
| MKey (key : Z)
| MString (s : string)
| MMatrix (data : list (list dtype)).

(** Modelled from the spec: "Flags: add_signal=1, add_op=2, add_probe=3,
    stop=4" (the constants are declared in the header of the MPI interface,
    which is not among the sources at hand). *)
Definition add_signal_flag : Z := 1.
Definition add_op_flag : Z := 2.
Definition add_probe_flag : Z := 3.
Definition stop_flag : Z := 4.

(** What the build loop does to the chunk: the calls, with their arguments.
    The same type describes the records rank 0 sends. *)
Inductive record : Type :=
| add_base_signal (key : Z) (label : string) (data : list (list dtype))
| add_op (op_string : string)
| add_probe (probe_key : Z) (signal_string : string) (period : Z).

(** The chunk under construction: its label, its time step and the calls
    made on it so far, oldest first. *)
Record chunk : Type := mk_chunk {
  label : string;
  dt : float;
  calls : list record
}.

Inductive outcome : Type :=
| Built (c : chunk) (rest : list message)  (* the loop was left by [break] *)
| Thrown (what : string)                   (* [runtime_error] *)
| Blocked         (* waiting in a receive for a message that does not come *)
| Garbled         (* the message received has not the type received for *)
| OutOfFuel.

(** The typed receives [recv_int], [recv_float], [recv_key], [recv_string]
    and [recv_matrix]: each takes the next message of the stream and hands
    it, with the rest of the stream, to what follows. *)
Definition recv_int (stream : list message) (k : Z -> list message -> outcome)
  : outcome :=
  match stream with
  | MInt z :: rest => k z rest
  | [] => Blocked
  | _ => Garbled
  end.

Definition recv_float (stream : list message) (k : float -> list message -> outcome)
  : outcome :=
  match stream with
  | MFloat x :: rest => k x rest
  | [] => Blocked
  | _ => Garbled
  end.

Definition recv_key (stream : list message) (k : Z -> list message -> outcome)
  : outcome :=
  match stream with
  | MKey key :: rest => k key rest
  | [] => Blocked
  | _ => Garbled
  end.

Definition recv_string (stream : list message)
  (k : string -> list message -> outcome) : outcome :=
  match stream with
  | MString s :: rest => k s rest
  | [] => Blocked
  | _ => Garbled
  end.

Definition recv_matrix (stream : list message)
  (k : list (list dtype) -> list message -> outcome) : outcome :=
  match stream with
  | MMatrix data :: rest => k data rest
  | [] => Blocked
  | _ => Garbled
  end.

Definition called (c : chunk) (r : record) : chunk :=
  {| label := label c; dt := dt c; calls := calls c ++ [r] |}.

Definition with_calls (c : chunk) (records : list record) : chunk :=
  {| label := label c; dt := dt c; calls := calls c ++ records |}.

(** The [while(1)] loop of [start_worker]; [fuel] bounds the number of
    iterations. *)
Fixpoint build_loop (fuel : nat) (c : chunk) (stream : list message) : outcome :=
  match fuel with
  | O => OutOfFuel
  | S fuel' =>
    recv_int stream (fun s stream =>
      if s =? add_signal_flag then
        recv_key stream (fun key stream =>
        recv_string stream (fun label stream =>
        recv_matrix stream (fun data stream =>
        build_loop fuel' (called c (add_base_signal key label data)) stream)))
      else if s =? add_op_flag then
        recv_string stream (fun op_string stream =>
        build_loop fuel' (called c (add_op op_string)) stream)
      else if s =? add_probe_flag then
        recv_key stream (fun probe_key stream =>
        recv_string stream (fun signal_string stream =>
        recv_int stream (fun period stream =>
        build_loop fuel' (called c (add_probe probe_key signal_string period))
                   stream)))
      else if s =? stop_flag then
        Built c stream
      else
        Thrown "Worker received invalid flag from master.")
  end.

(** The build phase of [start_worker]: the label and the time step of the
    chunk are received first.  Every iteration of the loop takes at least
    one message, so the length of the stream bounds their number. *)
Definition start_worker (stream : list message) : outcome :=
  recv_string stream (fun chunk_label stream =>
  recv_float stream (fun dt stream =>
  build_loop (S (length stream))
             {| label := chunk_label; dt := dt; calls := [] |} stream)).

(** The messages rank 0 sends for a record. *)
Definition encode (r : record) : list message :=
  match r with
  | add_base_signal key label data =>
    [MInt add_signal_flag; MKey key; MString label; MMatrix data]
  | add_op op_string => [MInt add_op_flag; MString op_string]
  | add_probe probe_key signal_string period =>
    [MInt add_probe_flag; MKey probe_key; MString signal_string; MInt period]
  end.

Definition valid_flag (s : Z) : bool :=
  (s =? add_signal_flag) || (s =? add_op_flag) || (s =? add_probe_flag)
  || (s =? stop_flag).

End Worker.

(** The receiving chunk can take its next step, at once or after the
    transport has delivered the message that is due. *)
Definition can_advance (w : Link.World) : Prop :=
  (exists w', Link.receiver_step w = Some w') \/
  (exists w1 w2, Link.deliver_step w = Some w1 /\ Link.receiver_step w1 = Some w2).

(** ** Reading probe data from Python ([PythonMpiSimulatorChunk::get_probe_data]) *)
Module PythonProbe.

Import Python.

Fixpoint replace_nth {A : Type} (i : nat) (x : A) (l : list A) : list A :=
  match i, l with
  | _, [] => []
  | O, _ :: l' => x :: l'
  | S i', y :: l' => y :: replace_nth i' x l'
  end.

(** [a[i] = x] on a [boost::python::object], for a number [x]: item
    assignment on a list or on an array; on an array of several dimensions
    the number is written to the whole sub-array of index [i]. *)
Definition setitem (o : object) (i : nat) (x : double) : result object :=
  match o with
  | PyList items =>
    if (i <? length items)%nat
    then Ok (PyList (replace_nth i (PyFloat x) items))
    else Raise IndexError
  | PyArray a =>
    match shape a with
    | [] => Raise IndexError
    | n :: rest =>
      if (i <? n)%nat then
        let len := fold_right Nat.mul 1%nat rest in
        Ok (PyArray {| shape := shape a;
                       data := firstn (i * len) (data a)
                               ++ repeat x len
                               ++ skipn (i * len + len) (data a) |})
      else Raise IndexError
    end
  | PyFloat _ => Raise TypeError
  | PyNone => Raise TypeError
  end.

(** The inner loop, [for(i = 0; i < size; ++i) a[i] = v[i]], from index [i]
    on, [rest] being the elements of the vector not copied yet. *)
Fixpoint copy_out (a : object) (i : nat) (rest : Vector) : result object :=
  match rest with
  | [] => Ok a
  | x :: rest' => a' <- setitem a i x ;; copy_out a' (S i) rest'
  end.

(** [get_probe_data], given the data of the probe (the lookup of the probe
    and its [get_data] are in files not at hand) and the Python callable
    [make_array]: one object per sample, made by [make_array(size)] and
    filled element by element, appended to a Python list.  The objects
    [make_array] returns are taken to be distinct from each other. *)
Definition get_probe_data (data : list Vector) (make_array : nat -> result object)
  : result object :=
  py_list <- mapM (fun v => a <- make_array (length v) ;; copy_out a 0 v) data ;;
  Ok (PyList py_list).

End PythonProbe.

(** The simulators that the calls of [MpiSimulator] reach from a fresh
    one-component simulator. *)
Inductive built : Simulator.t -> Prop :=
| built_create dt : built (Simulator.create 1 dt)
| built_add_signal sim key data sim' :
    built sim -> Simulator.add_signal 0 key data sim = Some sim' -> built sim'
| built_add_op sim op sim' :
    built sim -> Simulator.add_op 0 op sim = Some sim' -> built sim'
| built_add_probe sim probe_key signal_key period sim' :
    built sim ->
    Simulator.add_probe 0 probe_key signal_key period sim = Some sim' ->
    built sim'
| built_run sim steps sim' :
    built sim -> Simulator.run_n_steps steps sim = Some sim' -> built sim'.

(** ** The master's start-up ([mpi_master_start]): the name of the log file *)
Module Master.

(** [s.find_last_of(c)]: the position of the last occurrence of the
    character, [None] standing for [npos]. *)
Fixpoint find_last_of (c : Ascii.ascii) (s : string) : option nat :=
  match s with
  | EmptyString => None
  | String a s' =>
    match find_last_of c s' with
    | Some pos => Some (S pos)
    | None => if Ascii.eqb a c then Some 0%nat else None
    end
  end.

(** [s.substr(0, pos)]; with [npos] the whole string. *)
Definition substr_to (s : string) (pos : option nat) : string :=
  match pos with
  | Some n => substring 0 n s
  | None => s
  end.

(** The log file name when the [--log] option is not given:
    [net_filename.substr(0, net_filename.find_last_of(".")) + ".h5"]. *)
Definition default_log_filename (net_filename : string) : string :=
  append (substr_to net_filename (find_last_of "."%char net_filename)) ".h5".

(** [if(options[LOG]) log_filename = options[LOG].arg; else ...]. *)
Definition log_filename (log_option : option string) (net_filename : string)
  : string :=
  match log_option with
  | Some arg => arg
  | None => default_log_filename net_filename
  end.

Fixpoint contains (c : Ascii.ascii) (s : string) : bool :=
  match s with
  | EmptyString => false
  | String a s' => Ascii.eqb a c || contains c s'
  end.

End Master.

(** ** A matched pair on views of base signals

    [MPISend] and [MPIRecv] are built on a view of a base signal and copy
    through [content_data = &(content.data().expression().data()[0])], the
    address of element 0 of the storage of that base signal: they move
    [size] contiguous elements from there, [size] being the number of
    elements of the view.  The worlds of [Link] hold these blocks.  The
    worlds below hold the whole storage of the two base signals, and what a
    view presents is read out of the storage at the positions of the view. *)
Module ViewLink.

Import Chunk.


(** What the view [v] presents when the storage of its base signal holds
    [base]. *)
Definition present (base : list dtype) (v : SignalView) : list dtype :=
  read_view [(base_key v, base)] v.



Record World : Type := mk {
  sender : MPISend.t;
  send_base : list dtype;       (* storage of the base signal of the send view *)
  sent : list (list dtype);     (* history: that storage when the send ran, per step *)
  wire : list (list dtype);     (* messages in flight, oldest first *)
  receiver : MPIRecv.t;
  recv_base : list dtype;       (* storage of the base signal of the receive view *)
  seen : list (list dtype)      (* history: that storage as the receive left it
                                   to the operators after it, per step *)
}.

(** Both chunks right after the build: the operators are made on the views
    [sv] and [rv], [x0] and [y0] are the initial values of the two base
    signals. *)
Definition init (dst src tag : Z) (sv rv : SignalView) (x0 y0 : list dtype)
  : World :=
  {| sender := MPISend.create dst tag (present x0 sv); send_base := x0;
     sent := []; wire := [];
     receiver := MPIRecv.create src tag (present y0 rv); recv_base := y0;
     seen := [] |}.

(** One step of the sending chunk: the operators before the send leave [b]
    in the storage of the base signal, then [MPISend::operator()] runs on
    [content_data].  The storage is taken to hold at least [size] elements
    (the copy would run past it otherwise). *)
Definition sender_step (b : list dtype) (w : World) : World :=
  let '(op', wire', _) := MPISend.call (sender w) b (wire w) in
  {| sender := op'; send_base := b; sent := sent w ++ [b];
     wire := wire';
     receiver := receiver w; recv_base := recv_base w; seen := seen w |}.

(** One step of the receiving chunk: [MPIRecv::operator()] runs on
    [content_data], then the operators after it read the storage.  No other
    operator of the receiving chunk writes this base signal. *)
Definition receiver_step (w : World) : option World :=
  match MPIRecv.call (receiver w) (recv_base w) with
  | Some (op', base', _) =>
    Some {| sender := sender w; send_base := send_base w; sent := sent w;
            wire := wire w;
            receiver := op'; recv_base := base'; seen := seen w ++ [base'] |}
  | None => None
  end.

(** The transport hands the oldest message to the posted receive. *)
Definition deliver_step (w : World) : option World :=
  match MPIRecv.deliver (receiver w) (wire w) with
  | Some (op', wire') =>
    Some {| sender := sender w; send_base := send_base w; sent := sent w;
            wire := wire';
            receiver := op'; recv_base := recv_base w; seen := seen w |}
  | None => None
  end.

(** Any interleaving of the two chunks and the transport; the storage of a
    base signal keeps its length. *)
Inductive step : World -> World -> Prop :=
| step_sender w b :
    length b = length (send_base w) ->
    step w (sender_step b w)
| step_receiver w w' :
    receiver_step w = Some w' ->
    step w w'
| step_deliver w w' :
    deliver_step w = Some w' ->
    step w w'.

Inductive reachable (w0 : World) : World -> Prop :=
| reach_init : reachable w0 w0
| reach_step w w' : reachable w0 w -> step w w' -> reachable w0 w'.

(** The schedule in which both chunks advance in lockstep. *)
Definition lockstep_round (b : list dtype) (w : World) : option World :=
  match receiver_step (sender_step b w) with
  | Some w2 => deliver_step w2
  | None => None
  end.

Fixpoint lockstep (vals : list (list dtype)) (w : World) : option World :=
  match vals with
  | [] => Some w
  | b :: vals' =>
    match lockstep_round b w with
    | Some w' => lockstep vals' w'
    | None => None
    end
  end.

(** The blocks of a world: the operators, the wire and the first [n]
    elements of each storage, as a world of [Link]. *)
Definition block (n : nat) (w : World) : Link.World :=
  {| Link.sender := sender w;
     Link.send_view := firstn n (send_base w);
     Link.sent := map (firstn n) (sent w);
     Link.wire := wire w;
     Link.receiver := receiver w;
     Link.recv_view := firstn n (recv_base w);
     Link.seen := map (firstn n) (seen w) |}.

(** The invariant of a link whose views hold [n] elements, on base signals
    that initially hold [x0] and [y0]. *)
Record Inv (n : nat) (x0 y0 : list dtype) (w : World) : Prop := {
  inv_block : Link.Inv n (firstn n y0) (block n w);
  inv_sbase : length (send_base w) = length x0;
  inv_sent : Forall (fun b => length b = length x0) (sent w);
  inv_rbase : skipn n (recv_base w) = skipn n y0;
  inv_seen : Forall (fun r => skipn n r = skipn n y0) (seen w);
  inv_first : forall r, nth_error (seen w) 0 = Some r -> r = y0;
  inv_fresh : MPIRecv.first_call (receiver w) = true -> recv_base w = y0;
  inv_started : MPIRecv.first_call (receiver w) = false -> seen w <> []
}.

(** A send view at offset 1 of a base signal of two elements, matched with
    a receive view of a whole signal of one element: the sending chunk
    leaves [1; 2] in its base signal (the view holds 2) and steps, the
    receiving chunk steps, the message is delivered, the receiving chunk
    steps again. *)
Definition offset_view : SignalView :=
  {| base_key := 1; shape1 := 1; shape2 := 1;
     stride1 := 1; stride2 := 1; offset := 1 |}.

Definition offset_run : option World :=
  match receiver_step
          (sender_step [dbl 1 0; dbl 2 0]
             (init 1 0 7 offset_view (whole 2 1)
                   [S754_zero false; S754_zero false] [S754_zero false])) with
  | Some w1 =>
    match deliver_step w1 with
    | Some w2 => receiver_step w2
    | None => None
    end
  | None => None
  end.

End ViewLink.

(* ================================================================== *)
(** * Part II. Properties                                               *)
(* ================================================================== *)

Lemma memcpy_full (dst src : list dtype) (n : nat) :
  length src = n -> length dst = n -> memcpy dst src n = src.
Proof.
  intros Hs Hd. unfold memcpy.
  rewrite <- Hs at 1. rewrite firstn_all.
  rewrite <- Hd, skipn_all. apply app_nil_r.
Qed.

(** ** The send/receive link *)
Section LinkFacts.

Import Link.

Variables (n : nat) (y0 : list dtype).

Lemma firstn_snoc_nth (A : Type) (l : list A) (k : nat) (x : A) :
  nth_error l k = Some x -> firstn (S k) l = firstn k l ++ [x].
Proof.
  revert k. induction l as [|a l IH]; intros [|k] H; simpl in *; try discriminate.
  - now inversion H.
  - f_equal. now apply IH.
Qed.

Lemma skipn_cons_nth (A : Type) (l : list A) (k : nat) (x : A) (r : list A) :
  skipn k l = x :: r ->
  nth_error l k = Some x /\ skipn (S k) l = r /\ (S k <= length l)%nat.
Proof.
  revert k. induction l as [|a l IH]; intros [|k] H; simpl in *; try discriminate.
  - inversion H; subst. repeat split. lia.
  - destruct (IH _ H) as (H1 & H2 & H3). repeat split; auto. lia.
Qed.

Lemma Inv_init dst src tag x0 :
  length x0 = n -> length y0 = n -> Inv n y0 (init dst src tag x0 y0).
Proof.
  intros Hx Hy. constructor; simpl; auto.
  - now rewrite repeat_length.
  - now rewrite repeat_length.
  - exists 0%nat. repeat split; auto.
Qed.

Lemma Inv_sender w v :
  Inv n y0 w -> length v = MPISend.size (sender w) -> Inv n y0 (sender_step v w).
Proof.
  intros [Hss Hsb Hrs Hrb Hv Hsent Hseen Hcur (taken & Hle & Hwire & Hph)] Hlen.
  rewrite Hss in Hlen.
  assert (Hpay : firstn (MPISend.size (sender w))
                   (memcpy (MPISend.buffer (sender w)) v (MPISend.size (sender w))) = v).
  { rewrite Hss, memcpy_full by auto. rewrite <- Hlen. apply firstn_all. }
  unfold sender_step, MPISend.call. rewrite Hpay.
  constructor; simpl; auto.
  - rewrite Hss, memcpy_full; auto.
  - apply Forall_app. split; auto.
  - assert (Hb : (length (seen w) <= length (y0 :: sent w))%nat).
    { rewrite Hseen at 1. rewrite length_firstn. lia. }
    change (y0 :: sent w ++ [v]) with ((y0 :: sent w) ++ [v]).
    rewrite firstn_app.
    replace (length (seen w) - length (y0 :: sent w))%nat with 0%nat by lia.
    simpl firstn at 2. rewrite app_nil_r. exact Hseen.
  - exists taken. split; [rewrite length_app; lia|]. split.
    + rewrite skipn_app. rewrite Hwire.
      replace (taken - length (sent w))%nat with 0%nat by lia. reflexivity.
    + unfold receiver_phase in *. simpl.
      destruct (MPIRecv.first_call (receiver w)), (MPIRecv.request (receiver w)); auto.
      destruct Hph as (H1 & k & H2 & H3). split; auto. exists k. split; auto.
      rewrite nth_error_app1; auto. apply nth_error_Some. congruence.
Qed.

Lemma Inv_deliver w w' :
  Inv n y0 w -> deliver_step w = Some w' -> Inv n y0 w'.
Proof.
  intros [Hss Hsb Hrs Hrb Hv Hsent Hseen Hcur (taken & Hle & Hwire & Hph)] Hstep.
  unfold deliver_step, MPIRecv.deliver in Hstep.
  destruct (MPIRecv.request (receiver w)) eqn:Hreq; try discriminate.
  destruct (wire w) as [|m wire'] eqn:Hw; try discriminate.
  inversion Hstep; subst w'; clear Hstep.
  symmetry in Hwire. destruct (skipn_cons_nth _ _ Hwire) as (Hnth & Hskip & Hle').
  assert (Hm : length m = n).
  { rewrite Forall_forall in Hsent. apply Hsent. eapply nth_error_In; eauto. }
  constructor; simpl; auto.
  - rewrite Hrs, memcpy_full; auto.
  - exists (S taken). repeat split; auto.
    unfold receiver_phase in *. simpl. rewrite Hreq in Hph.
    destruct (MPIRecv.first_call (receiver w)); [contradiction|].
    split; auto. exists taken. split; auto.
    rewrite Hrs, memcpy_full; auto.
Qed.

Lemma Inv_receiver w w' :
  Inv n y0 w -> receiver_step w = Some w' -> Inv n y0 w'.
Proof.
  intros [Hss Hsb Hrs Hrb Hv Hsent Hseen Hcur (taken & Hle & Hwire & Hph)] Hstep.
  unfold receiver_step, MPIRecv.call in Hstep. unfold receiver_phase in Hph.
  destruct (MPIRecv.first_call (receiver w)) eqn:Hfc.
  - inversion Hstep; subst w'; clear Hstep.
    destruct (MPIRecv.request (receiver w)); try contradiction.
    destruct Hph as (Hnil & ->).
    constructor; simpl; auto.
    + rewrite Hnil. simpl. rewrite Hcur, Hnil. reflexivity.
    + now rewrite last_last.
    + exists 0%nat. repeat split; auto; try lia.
      unfold receiver_phase. simpl. rewrite Hnil. reflexivity.
  - destruct (MPIRecv.request (receiver w)) eqn:Hreq; try discriminate; try contradiction.
    inversion Hstep; subst w'; clear Hstep.
    destruct Hph as (Hlen & k & -> & Hnth).
    rewrite Hrs, memcpy_full by auto.
    constructor; simpl; auto.
    + rewrite length_app, Hlen. simpl length.
      replace (S k + 1)%nat with (S (S k)) by lia.
      rewrite firstn_snoc_nth with (x := MPIRecv.buffer (receiver w)) by exact Hnth.
      f_equal. rewrite Hseen at 1. now rewrite Hlen.
    + now rewrite last_last.
    + exists (S k). repeat split; auto.
      unfold receiver_phase. simpl. rewrite length_app, Hlen. simpl. lia.
Qed.

Lemma Inv_step w w' : Inv n y0 w -> step w w' -> Inv n y0 w'.
Proof.
  intros HI Hs. destruct Hs.
  - now apply Inv_sender.
  - eapply Inv_receiver; eauto.
  - eapply Inv_deliver; eauto.
Qed.

Lemma Inv_reachable w0 w : Inv n y0 w0 -> reachable w0 w -> Inv n y0 w.
Proof.
  intros H0 Hr. induction Hr; auto. eapply Inv_step; eauto.
Qed.

End LinkFacts.

Section LinkTheorems.

Import Link.

Lemma reachable_trans w0 w1 w2 :
  reachable w0 w1 -> reachable w1 w2 -> reachable w0 w2.
Proof.
  intros H01 H12. induction H12; auto. eapply reach_step; eauto.
Qed.

(** What the receiving chunk has seen is a prefix of the initial value
    followed by what the sending chunk has sent. *)
Lemma seen_nth n y0 w s :
  Inv n y0 w -> (s < length (seen w))%nat ->
  nth_error (seen w) s = nth_error (y0 :: sent w) s.
Proof.
  intros HI Hs. rewrite (inv_seen HI) at 1.
  rewrite nth_error_firstn.
  apply Nat.ltb_lt in Hs. now rewrite Hs.
Qed.

Lemma lockstep_round_ok n y0 w v :
  Inv n y0 w -> wire w = [] -> MPIRecv.request (receiver w) <> Posted ->
  length v = n ->
  exists w', lockstep_round v w = Some w' /\ reachable w w' /\
             wire w' = [] /\ MPIRecv.request (receiver w') = Complete /\
             sent w' = sent w ++ [v] /\
             length (seen w') = S (length (seen w)).
Proof.
  intros HI Hw Hreq Hv.
  pose proof (inv_ssize HI) as Hss. pose proof (inv_sbuf HI) as Hsb.
  assert (Hstep1 : step w (sender_step v w)) by (constructor; congruence).
  assert (Hpay : firstn (MPISend.size (sender w))
                   (memcpy (MPISend.buffer (sender w)) v (MPISend.size (sender w))) = v).
  { rewrite Hss, memcpy_full by auto. rewrite <- Hv. apply firstn_all. }
  unfold lockstep_round.
  destruct (receiver_step (sender_step v w)) as [w2|] eqn:H2.
  - assert (Hstep2 : step (sender_step v w) w2) by now constructor 2.
    unfold receiver_step, sender_step, MPISend.call, MPIRecv.call in H2.
    simpl in H2. rewrite Hpay, Hw in H2. simpl in H2.
    assert (Hw2 : wire w2 = [v] /\ MPIRecv.request (receiver w2) = Posted /\
                  sent w2 = sent w ++ [v] /\ length (seen w2) = S (length (seen w))).
    { destruct (MPIRecv.first_call (receiver w)).
      - inversion H2; subst w2; simpl. rewrite length_app. simpl.
        repeat split; auto. lia.
      - destruct (MPIRecv.request (receiver w)); try congruence;
          inversion H2; subst w2; simpl; rewrite length_app; simpl;
            repeat split; auto; lia. }
    destruct Hw2 as (Hwire2 & Hreq2 & Hsent2 & Hseen2).
    destruct (deliver_step w2) as [w3|] eqn:H3.
    + exists w3. split; auto.
      assert (Hstep3 : step w2 w3) by now constructor 3.
      split. { eapply reach_step; [|exact Hstep3].
               eapply reach_step; [|exact Hstep2].
               eapply reach_step; [apply reach_init|exact Hstep1]. }
      unfold deliver_step, MPIRecv.deliver in H3.
      rewrite Hreq2, Hwire2 in H3. inversion H3; subst w3; simpl. auto.
    + exfalso. unfold deliver_step, MPIRecv.deliver in H3.
      rewrite Hreq2, Hwire2 in H3. discriminate.
  - exfalso. unfold receiver_step, sender_step, MPISend.call, MPIRecv.call in H2.
    simpl in H2.
    destruct (MPIRecv.first_call (receiver w)); try discriminate.
    destruct (MPIRecv.request (receiver w)); try discriminate. congruence.
Qed.

Lemma lockstep_ok n y0 vals : forall w,
  Inv n y0 w -> wire w = [] -> MPIRecv.request (receiver w) <> Posted ->
  Forall (fun v => length v = n) vals ->
  exists w', lockstep vals w = Some w' /\ reachable w w' /\
             sent w' = sent w ++ vals /\
             length (seen w') = (length (seen w) + length vals)%nat.
Proof.
  induction vals as [|v vals IH]; intros w HI Hw Hreq Hall.
  - exists w. simpl. rewrite app_nil_r. repeat split; auto using reach_init.
  - apply Forall_cons_iff in Hall as [Hv Hall'].
    destruct (lockstep_round_ok v HI Hw Hreq Hv)
      as (w1 & Hr & Hreach & Hw1 & Hreq1 & Hsent1 & Hseen1).
    destruct (IH w1) as (w' & Hl & Hreach' & Hsent' & Hseen'); auto.
    { eapply Inv_reachable; eauto. }
    { congruence. }
    exists w'. simpl. rewrite Hr. split; auto.
    split. { eapply reachable_trans; eauto. }
    split.
    + rewrite Hsent', Hsent1, <- app_assoc. reflexivity.
    + rewrite Hseen', Hseen1. simpl. lia.
Qed.

(** One-step latency on the blocks the two operators copy.  In every
    execution of the two chunks, whatever the interleaving:
    (a) the block the receive leaves to the operators of step [s+1] is the
        block the send found in step [s];
    (b) the block of step [s] depends only on what was sent in the steps
        before [s] (and on the initial value);
    (c) the lockstep schedule runs to the end, and the receiver sees the
        initial block followed by the blocks sent, each one step late. *)
Lemma link_block_latency (dst src tag : Z) (x0 y0 : list dtype) :
  length x0 = length y0 ->
  let w0 := init dst src tag x0 y0 in
  (forall w s v, reachable w0 w ->
      nth_error (seen w) (S s) = Some v -> nth_error (sent w) s = Some v) /\
  (forall w1 w2 s, reachable w0 w1 -> reachable w0 w2 ->
      (s < length (seen w1))%nat -> (s < length (seen w2))%nat ->
      firstn s (sent w1) = firstn s (sent w2) ->
      nth_error (seen w1) s = nth_error (seen w2) s) /\
  (forall vals, Forall (fun v => length v = length x0) vals ->
      exists w, lockstep vals w0 = Some w /\ reachable w0 w /\
                sent w = vals /\
                seen w = firstn (length vals) (y0 :: vals)).
Proof.
  intros Hlen w0.
  assert (HI0 : Inv (length x0) y0 w0) by (apply Inv_init; auto).
  split; [|split].
  - intros w s v Hr Hs.
    assert (HI : Inv (length x0) y0 w) by exact (Inv_reachable HI0 Hr).
    rewrite (@seen_nth _ _ _ (S s) HI) in Hs; auto.
    apply nth_error_Some. congruence.
  - intros w1 w2 s Hr1 Hr2 Hs1 Hs2 Hpre.
    assert (HI1 : Inv (length x0) y0 w1) by exact (Inv_reachable HI0 Hr1).
    assert (HI2 : Inv (length x0) y0 w2) by exact (Inv_reachable HI0 Hr2).
    rewrite (@seen_nth _ _ _ s HI1), (@seen_nth _ _ _ s HI2) by auto.
    destruct s as [|s]; [reflexivity|]. simpl.
    assert (Hk : forall l : list (list dtype),
               nth_error l s = nth_error (firstn (S s) l) s).
    { intros l. rewrite nth_error_firstn.
      now replace (s <? S s)%nat with true by (symmetry; apply Nat.ltb_lt; lia). }
    rewrite (Hk (sent w1)), (Hk (sent w2)), Hpre. reflexivity.
  - intros vals Hall.
    destruct (@lockstep_ok (length x0) y0 vals w0 HI0) as (w & Hl & Hr & Hsent & Hseen); auto.
    { simpl. discriminate. }
    exists w. simpl in Hsent. subst vals. repeat split; auto.
    assert (HI : Inv (length x0) y0 w) by exact (Inv_reachable HI0 Hr).
    rewrite (inv_seen HI) at 1. now rewrite Hseen.
Qed.

(** The ring of the two-chunk scenario, on the link from chunk 0 to chunk 1:
    chunk 0 sends 1.0 in each of three steps; chunk 1 sees 0, 1, 1. *)
Example lockstep_ring :
  option_map seen
    (lockstep [[dbl 1 0]; [dbl 1 0]; [dbl 1 0]]
              (init 1 0 7 [S754_zero false] [S754_zero false]))
  = Some [[S754_zero false]; [dbl 1 0]; [dbl 1 0]].
Proof. reflexivity. Qed.

End LinkTheorems.

(** ** The link on views of base signals *)
Section ViewLinkFacts.

Import Chunk ViewLink.











Section Invariant.

Variables (n : nat) (x0 y0 : list dtype).
Hypothesis Hx : (n <= length x0)%nat.
Hypothesis Hy : (n <= length y0)%nat.








End Invariant.




(** The run of the counterexample: the send view held 2, the receive view
    presents 1. *)
Example offset_view_run :
  option_map (fun w => (map (fun b => present b offset_view) (sent w),
                        map (fun r => present r (whole 2 1)) (seen w)))
             offset_run
  = Some ([[dbl 2 0]], [[S754_zero false]; [dbl 1 0]]).
Proof. reflexivity. Qed.

End ViewLinkFacts.

(** ** [MPIRecv]: the first call *)
Section RecvFacts.

Import MPIRecv.

(** C7. The first call of [MPIRecv::operator()] (the operator as built, or
    any operator whose [first_call] flag is set) never blocks, performs no
    wait, only posts the receive and leaves the content view as it is; a
    later call that returns has waited, and it is then that the buffer is
    copied into the view.  Hence the operators that run after the receive
    in step 0 read the initial value of the signal, whatever the peer
    sent. *)
Theorem recv_first_call_leaves_view (op : t) (content : list dtype) :
  (first_call op = true ->
     exists op', call op content = Some (op', content, [CallIrecv (src op) (tag op)]) /\
                 first_call op' = false /\ buffer op' = buffer op) /\
  (forall s g, call (create s g content) content
               = Some ({| src := s; tag := g; size := length content;
                          buffer := buffer (create s g content);
                          first_call := false; request := Posted |},
                       content, [CallIrecv s g])) /\
  (first_call op = false ->
     forall op' content' calls, call op content = Some (op', content', calls) ->
       content' = memcpy content (buffer op) (size op) /\
       calls = [CallWait; CallIrecv (src op) (tag op)]) /\
  (forall dst s g x0 w v, length x0 = length content ->
     Link.reachable (Link.init dst s g x0 content) w ->
     nth_error (Link.seen w) 0 = Some v -> v = content).
Proof.
  split; [|split; [|split]].
  - intros Hfc. unfold call. rewrite Hfc. eexists. repeat split.
  - reflexivity.
  - intros Hfc op' content' calls H. unfold call in H. rewrite Hfc in H.
    destruct (request op); inversion H; split; reflexivity.
  - intros dst s g x0 w v Hlen Hr Hv.
    assert (HI : Link.Inv (length x0) content w).
    { eapply Inv_reachable; [|exact Hr]. apply Inv_init; auto. }
    rewrite (@seen_nth _ _ _ 0%nat HI) in Hv.
    + simpl in Hv. congruence.
    + apply nth_error_Some. congruence.
Qed.

Lemma recv_first_call_leaves_view_witness :
  exists op', call (create 0 7 [dbl 5 0]) [dbl 5 0]
              = Some (op', [dbl 5 0], [CallIrecv 0 7]) /\
              first_call op' = false /\
              buffer op' = buffer (create 0 7 [dbl 5 0]).
Proof.
  apply (recv_first_call_leaves_view (create 0 7 [dbl 5 0]) [dbl 5 0]).
  reflexivity.
Defined.

End RecvFacts.

(** ** [MPIBarrier] *)
Section BarrierFacts.

Import MPIBarrier.

Lemma wrap_int_id z : - 2 ^ 31 <= z <= INT_MAX -> wrap_int z = z.
Proof.
  unfold wrap_int, INT_MAX. intros H.
  rewrite Z.mod_small; lia.
Qed.

Variable P : Z.
Hypothesis P_pos : 0 < P.

Lemma call_n_spec n : forall op,
  0 <= step op -> step op + Z.of_nat n <= INT_MAX ->
  call_n P n op
  = ({| step := step op + Z.of_nat n |}, map (nth_calls P (step op)) (seq 0 n)).
Proof.
  induction n as [|n IH]; intros [s] H0 Hmax; simpl step in *.
  - simpl. now rewrite Z.add_0_r.
  - cbn [call_n call step]. rewrite wrap_int_id by (unfold INT_MAX in *; lia).
    rewrite IH by (simpl; lia). simpl step. f_equal.
    + f_equal. lia.
    + cbn [seq map]. unfold nth_calls at 2. rewrite Z.add_0_r. f_equal.
      rewrite <- seq_shift, map_map. apply map_ext. intros i.
      unfold nth_calls.
      now replace (s + 1 + Z.of_nat i) with (s + Z.of_nat (S i)) by lia.
Qed.

Lemma div_step x :
  1 <= x -> x / P - (x - 1) / P = if Z.rem x P =? 0 then 1 else 0.
Proof.
  intros Hx. rewrite Z.rem_mod_nonneg by lia.
  pose proof (Z.div_mod x P ltac:(lia)) as E1.
  pose proof (Z.div_mod (x - 1) P ltac:(lia)) as E2.
  pose proof (Z.mod_pos_bound x P P_pos) as B1.
  pose proof (Z.mod_pos_bound (x - 1) P P_pos) as B2.
  generalize dependent (x / P). generalize dependent ((x - 1) / P).
  generalize dependent (x mod P). generalize dependent ((x - 1) mod P).
  intros r2 B2 r1 B1 q2 E2 q1 E1.
  assert (Hq : q1 - q2 = 0 \/ q1 - q2 = 1) by nia.
  destruct (Z.eqb_spec r1 0) as [E|E]; nia.
Qed.

Lemma barriers_count a len :
  (1 <= a)%nat ->
  Z.of_nat (length (concat (map (nth_calls P 0) (seq a len))))
  = (Z.of_nat (a + len) - 1) / P - (Z.of_nat a - 1) / P.
Proof.
  intros Ha. induction len as [|len IH].
  - simpl. rewrite Nat.add_0_r. lia.
  - rewrite seq_S, map_app, concat_app, length_app, Nat2Z.inj_add, IH.
    replace (Z.of_nat (a + S len) - 1) with (Z.of_nat (a + len)) by lia.
    pose proof (@div_step (Z.of_nat (a + len)) ltac:(lia)) as D.
    cbn [map concat]. rewrite app_nil_r. unfold nth_calls, due.
    rewrite Z.add_0_l.
    replace (Z.of_nat (a + len) =? 0) with false by (symmetry; apply Z.eqb_neq; lia).
    cbn [negb andb].
    destruct (Z.rem (Z.of_nat (a + len)) P =? 0); simpl length; lia.
Qed.

Lemma firstn_seq len a m : (len <= m)%nat -> firstn len (seq a m) = seq a len.
Proof.
  intros H. replace m with (len + (m - len))%nat by lia.
  rewrite seq_app, firstn_app, length_seq, Nat.sub_diag, firstn_O, app_nil_r.
  rewrite <- (length_seq len a) at 1. apply firstn_all.
Qed.

(** C5 (amended). Starting from a fresh operator, and as long as the [int]
    counter does not overflow: the counter advances by one per invocation;
    the invocation preceded by [i] others performs a barrier exactly when
    [i] is a non-zero multiple of [BARRIER_PERIOD]; the first invocation
    performs none; every other invocation makes no MPI call at all; and any
    [BARRIER_PERIOD] consecutive invocations that do not include the first
    one contain exactly one barrier. *)
Theorem barrier_once_per_period_after_first (n : nat) :
  Z.of_nat n <= INT_MAX ->
  let r := call_n P n create in
  step (fst r) = Z.of_nat n /\
  (forall i, (i < n)%nat ->
     nth i (snd r) [] =
     if negb (Z.of_nat i =? 0) && (Z.of_nat i mod P =? 0)
     then [CallBarrier] else []) /\
  (forall a, (1 <= a)%nat -> (a + Z.to_nat P <= n)%nat ->
     barriers_in (snd r) a (Z.to_nat P) = 1%nat) /\
  (forall op, 0 <= step op < INT_MAX -> due P (step op) = false ->
     call P op = ({| step := step op + 1 |}, [])).
Proof.
  intros Hn r. subst r. rewrite call_n_spec by (simpl; lia). simpl fst. simpl snd.
  split; [reflexivity|]. split; [|split].
  - intros i Hi.
    rewrite nth_indep with (d' := nth_calls P 0 0%nat) by (now rewrite length_map, length_seq).
    rewrite map_nth, seq_nth by exact Hi. simpl step. unfold nth_calls, due.
    rewrite !Z.add_0_l, Z.rem_mod_nonneg by lia. reflexivity.
  - intros a Ha Hwin. unfold barriers_in. simpl step.
    rewrite skipn_map, firstn_map, skipn_seq, firstn_seq by lia.
    apply Nat2Z.inj. rewrite barriers_count by exact Ha.
    rewrite Nat2Z.inj_add, Z2Nat.id by lia.
    replace (Z.of_nat (0 + a) + P - 1) with ((Z.of_nat a - 1) + 1 * P) by lia.
    rewrite Z.div_add by lia. simpl. lia.
  - intros [s] Hs Hdue. unfold call. simpl step in *. rewrite Hdue.
    rewrite wrap_int_id by (unfold INT_MAX in *; lia). reflexivity.
Qed.

End BarrierFacts.

Lemma barrier_once_per_period_after_first_witness :
  let r := MPIBarrier.call_n 1000 2500 MPIBarrier.create in
  MPIBarrier.step (fst r) = 2500 /\
  (forall i, (i < 2500)%nat ->
     nth i (snd r) [] =
     if negb (Z.of_nat i =? 0) && (Z.of_nat i mod 1000 =? 0)
     then [CallBarrier] else []) /\
  (forall a, (1 <= a)%nat -> (a + Z.to_nat 1000 <= 2500)%nat ->
     MPIBarrier.barriers_in (snd r) a (Z.to_nat 1000) = 1%nat) /\
  (forall op, 0 <= MPIBarrier.step op < INT_MAX ->
     MPIBarrier.due 1000 (MPIBarrier.step op) = false ->
     MPIBarrier.call 1000 op = ({| MPIBarrier.step := MPIBarrier.step op + 1 |}, [])).
Proof.
  apply (@barrier_once_per_period_after_first 1000 ltac:(lia) 2500%nat).
  unfold INT_MAX. lia.
Defined.

(** C5 as the specification words it: every [BARRIER_PERIOD]
    consecutive invocations contain exactly one barrier.  It fails on the
    first period: with a period of 1000, the first 1000 invocations of a
    fresh operator perform no barrier at all (the guard excludes
    [step == 0]). *)
Lemma barrier_first_period_counterexample :
  ~ (forall (P : Z) (n a : nat),
        0 < P -> Z.of_nat n <= INT_MAX -> (a + Z.to_nat P <= n)%nat ->
        MPIBarrier.barriers_in
          (snd (MPIBarrier.call_n P n MPIBarrier.create)) a (Z.to_nat P) = 1%nat).
Proof.
  intros H.
  specialize (H 1000 1000%nat 0%nat ltac:(lia) ltac:(unfold INT_MAX; lia) ltac:(lia)).
  vm_compute in H. discriminate.
Qed.

(** ** The Python bridge *)
Section PythonFacts.

Import Python.

Lemma mapM_ok (A B : Type) (f : A -> result B) (g : A -> B) (l : list A) :
  (forall x, In x l -> f x = Ok (g x)) -> mapM f l = Ok (map g l).
Proof.
  induction l as [|x l IH]; intros H; simpl; [reflexivity|].
  rewrite H by now left. simpl. rewrite IH; [reflexivity|].
  intros y Hy. apply H. now right.
Qed.

Lemma map_seq_nth (A B : Type) (f : A -> B) (d : A) (xs : list A) :
  map (fun i => f (nth i xs d)) (seq 0 (length xs)) = map f xs.
Proof.
  induction xs as [|x xs IH]; simpl; [reflexivity|].
  f_equal. rewrite <- seq_shift, map_map. exact IH.
Qed.

Lemma firstn_1_skipn (A : Type) (l : list A) (i : nat) (x : A) :
  nth_error l i = Some x -> firstn 1 (skipn i l) = [x].
Proof.
  revert i. induction l as [|a l IH]; intros [|i] H; simpl in *; try discriminate.
  - now inversion H.
  - now apply IH.
Qed.

Lemma nth_error_row (A : Type) (l : list A) (c i j : nat) :
  (j < c)%nat ->
  nth_error (firstn c (skipn (i * c) l)) j = nth_error l (i * c + j).
Proof.
  intros Hj. rewrite nth_error_firstn.
  replace (j <? c)%nat with true by (symmetry; now apply Nat.ltb_lt).
  apply nth_error_skipn.
Qed.

(** Indexing a one-dimensional array and extracting the element. *)
Lemma getitem_vector xs i :
  bind (getitem (PyArray {| shape := [length xs]; data := xs |}) i) extract_float
  = match nth_error xs i with
    | Some x => Ok (float_of_double x)
    | None => Raise IndexError
    end.
Proof.
  unfold getitem. cbn [shape data fold_right].
  destruct (nth_error xs i) as [x|] eqn:E.
  - assert (Hi : (i < length xs)%nat) by (apply nth_error_Some; congruence).
    apply Nat.ltb_lt in Hi. rewrite Hi. rewrite Nat.mul_1_r.
    now rewrite (firstn_1_skipn _ _ E).
  - apply nth_error_None in E.
    replace (i <? length xs)%nat with false by (symmetry; apply Nat.ltb_ge; lia).
    reflexivity.
Qed.

Lemma getitem_list xs i :
  bind (getitem (PyList (map PyFloat xs)) i) extract_float
  = match nth_error xs i with
    | Some x => Ok (float_of_double x)
    | None => Raise IndexError
    end.
Proof.
  unfold getitem. rewrite nth_error_map.
  destruct (nth_error xs i); reflexivity.
Qed.

Lemma element_through_float o i x :
  bind (getitem o i) extract_float = Ok (float_of_double x) ->
  bind (getitem o i) (fun o' =>
    bind (extract_float o') (fun f => Ok (double_of_float f)))
  = Ok (through_float x).
Proof.
  intros G. destruct (getitem o i) as [o'| |]; simpl in G |- *; try discriminate.
  destruct (extract_float o'); simpl in G |- *; try discriminate.
  inversion G. reflexivity.
Qed.

Lemma ndarray_to_vector_rounds xs :
  ndarray_to_vector {| shape := [length xs]; data := xs |}
  = Ok (map through_float xs).
Proof.
  unfold ndarray_to_vector, size. cbn [shape fold_right]. rewrite Nat.mul_1_r.
  rewrite mapM_ok with (g := fun i => through_float (nth i xs (S754_zero false))).
  - f_equal. apply map_seq_nth.
  - intros i Hi. apply in_seq in Hi.
    apply element_through_float. rewrite getitem_vector.
    now rewrite (nth_error_nth' xs (S754_zero false)) by lia.
Qed.

Lemma ndarray_to_matrix_rounds r c xs :
  length xs = (r * c)%nat ->
  ndarray_to_matrix {| shape := [r; c]; data := xs |}
  = Ok (map (fun i => map (fun j => through_float (nth (i * c + j) xs (S754_zero false)))
                          (seq 0 c))
            (seq 0 r)).
Proof.
  intros Hlen. unfold ndarray_to_matrix. cbn [shape].
  apply mapM_ok. intros i Hi. apply in_seq in Hi.
  apply mapM_ok. intros j Hj. apply in_seq in Hj.
  assert (Hij : (i * c + j < length xs)%nat) by nia.
  assert (Hrow : getitem (PyArray {| shape := [r; c]; data := xs |}) i
                 = Ok (PyArray {| shape := [c];
                                  data := firstn c (skipn (i * c) xs) |})).
  { unfold getitem. cbn [shape data fold_right]. rewrite Nat.mul_1_r.
    replace (i <? r)%nat with true by (symmetry; apply Nat.ltb_lt; lia).
    reflexivity. }
  rewrite Hrow. cbn [bind].
  assert (Hx : nth_error (firstn c (skipn (i * c) xs)) j
               = Some (nth (i * c + j) xs (S754_zero false))).
  { rewrite nth_error_row by lia. now apply nth_error_nth'. }
  apply element_through_float.
  assert (Hc : length (firstn c (skipn (i * c) xs)) = c).
  { rewrite length_firstn, length_skipn. nia. }
  rewrite <- Hc at 1. rewrite getitem_vector, Hx. reflexivity.
Qed.

Lemma skipn_nth_cons (A : Type) (l : list A) (i : nat) (x : A) :
  nth_error l i = Some x -> skipn i l = x :: skipn (S i) l.
Proof.
  revert i. induction l as [|a l IH]; intros [|i] H; simpl in *; try discriminate.
  - now inversion H.
  - now apply IH.
Qed.

(** The write-back loop on an object that indexes like the sequence [xs]. *)
Lemma write_back_sequence o xs :
  (forall i, bind (getitem o i) extract_float
             = match nth_error xs i with
               | Some x => Ok (float_of_double x)
               | None => Raise IndexError
               end) ->
  forall rest i done,
    write_back o i done rest
    = if (length rest <=? length xs - i)%nat
      then (done ++ map through_float (firstn (length rest) (skipn i xs)), Normal)
      else (done ++ map through_float (skipn i xs)
                 ++ skipn (length xs - i) rest, Raised IndexError).
Proof.
  intros Helem. induction rest as [|r rest IH]; intros i done.
  - simpl. now rewrite app_nil_r.
  - cbn [write_back]. rewrite Helem.
    destruct (nth_error xs i) as [x|] eqn:E.
    + assert (Hi : (i < length xs)%nat) by (apply nth_error_Some; congruence).
      rewrite IH. rewrite (skipn_nth_cons _ _ E). cbn [length].
      replace (length xs - i)%nat with (S (length xs - S i)) by lia.
      change (S (length rest) <=? S (length xs - S i))%nat
        with (length rest <=? length xs - S i)%nat.
      destruct (length rest <=? length xs - S i)%nat.
      * cbn [firstn map]. now rewrite <- app_assoc.
      * cbn [map skipn]. now rewrite <- app_assoc.
    + apply nth_error_None in E.
      replace (length xs - i)%nat with 0%nat by lia.
      rewrite skipn_all2 by exact E. reflexivity.
Qed.

Lemma holds_elements o xs :
  holds o xs ->
  extract_float o = Raise TypeError /\
  forall i, bind (getitem o i) extract_float
            = match nth_error xs i with
              | Some x => Ok (float_of_double x)
              | None => Raise IndexError
              end.
Proof.
  intros [->| ->]; split.
  - reflexivity.
  - apply getitem_list.
  - reflexivity.
  - apply getitem_vector.
Qed.

Lemma store_output_sequence output o xs :
  holds o xs ->
  store_output output o
  = if (length output <=? length xs)%nat
    then (map through_float (firstn (length output) xs), Normal)
    else (map through_float xs ++ skipn (length xs) output, Raised IndexError).
Proof.
  intros H. destruct (holds_elements H) as [He Hi].
  unfold store_output. rewrite He.
  rewrite (@write_back_sequence o xs Hi). rewrite Nat.sub_0_r. reflexivity.
Qed.

Lemma call_store op time input output py_in o :
  prepare_input op input = (py_in, Normal) ->
  py_fn op (callback_args op time py_in) = Ok o ->
  snd (fst (call op time input output)) = fst (store_output output o) /\
  snd (call op time input output) = snd (store_output output o).
Proof.
  intros Hfill Hfn. unfold call. rewrite Hfill, Hfn.
  destruct (store_output output o). split; reflexivity.
Qed.





Example callback_truncated :
  call (returning (PyList [PyFloat (dbl 1 0); PyFloat (dbl 2 0); PyFloat (dbl 3 0)]))
       (S754_zero false) [] [S754_zero false; S754_zero false]
  = (returning (PyList [PyFloat (dbl 1 0); PyFloat (dbl 2 0); PyFloat (dbl 3 0)]),
     [dbl 1 0; dbl 2 0], Normal).
Proof. reflexivity. Qed.

Example callback_scalar_for_vector :
  call (returning (PyFloat (dbl 5 0)))
       (S754_zero false) [] [S754_zero false; S754_zero false]
  = (returning (PyFloat (dbl 5 0)), [dbl 5 0; S754_zero false], Normal).
Proof. reflexivity. Qed.

Lemma extract_float_narrows o f :
  extract_float o = Ok f -> exists x, f = float_of_double x.
Proof.
  destruct o as [x|items|a|]; simpl; try discriminate.
  intros H. inversion H. now exists x.
Qed.

(** Whatever the object, the loop only writes values that went through
    [float], into a prefix of the view. *)
Lemma write_back_written o : forall rest i done out how,
  write_back o i done rest = (out, how) ->
  exists written,
    out = done ++ written ++ skipn (length written) rest /\
    Forall (fun y => exists x, y = through_float x) written.
Proof.
  induction rest as [|r rest IH]; intros i done out how H.
  - simpl in H. inversion H; subst. exists []. now rewrite app_nil_r.
  - cbn [write_back] in H.
    destruct (getitem o i) as [o'| |] eqn:G; cbn [bind] in H.
    + destruct (extract_float o') as [f| |] eqn:E.
      * destruct (IH _ _ _ _ H) as (written & -> & Hall).
        destruct (extract_float_narrows o' E) as [x ->].
        exists (through_float x :: written). split.
        -- now rewrite <- app_assoc.
        -- constructor; [now exists x|exact Hall].
      * inversion H; subst. now exists [].
      * inversion H; subst. now exists [].
    + inversion H; subst. now exists [].
    + inversion H; subst. now exists [].
Qed.

Lemma store_output_written output o :
  exists written,
    fst (store_output output o) = written ++ skipn (length written) output /\
    Forall (fun y => exists x, y = through_float x) written.
Proof.
  unfold store_output. destruct (extract_float o) as [f| |] eqn:E.
  - destruct (extract_float_narrows o E) as [x ->].
    destruct output as [|y rest].
    + now exists [].
    + exists [through_float x]. split; [reflexivity|].
      constructor; [now exists x|constructor].
  - destruct (write_back o 0 [] output) as [out how] eqn:W.
    destruct (write_back_written o output 0 [] W) as (written & -> & Hall).
    now exists written.
  - now exists [].
Qed.

(** C10. Every value that crosses the Python boundary goes through [float]:
    - a one-dimensional array registered with [add_signal] becomes the vector
      of its elements, each narrowed to [float] and widened to [dtype];
    - a two-dimensional array becomes the matrix of its elements, likewise;
    - when the callback of a [PyFunc] returns the sequence [xs], the output
      view holds, after the call, the elements of [xs] that fit, each narrowed
      to [float] and widened again, followed by the elements of the view that
      [xs] does not reach;
    - when it returns the number [x], element 0 of the view holds [x] narrowed
      to [float] and widened again, and the other elements are as before;
    - whatever the callback returns, the output view is a prefix of written
      elements, each of them some [double] narrowed to [float] and widened
      again, followed by the elements the call left alone;
    - the narrowing does lose precision: the [double] nearest to 0.1 is
      stored as another number, while 1.0 is stored as it is. *)
Theorem python_values_go_through_float :
  (forall key xs,
      add_signal key {| shape := [length xs]; data := xs |}
      = Ok (vector_signal key (map through_float xs))) /\
  (forall key r c xs, length xs = (r * c)%nat ->
      add_signal key {| shape := [r; c]; data := xs |}
      = Ok (matrix_signal key
              (map (fun i => map (fun j =>
                      through_float (nth (i * c + j) xs (S754_zero false)))
                    (seq 0 c)) (seq 0 r)))) /\
  (forall op time input output py_in o xs,
      prepare_input op input = (py_in, Normal) ->
      py_fn op (callback_args op time py_in) = Ok o ->
      holds o xs ->
      snd (fst (call op time input output))
      = map through_float (firstn (length output) xs)
        ++ skipn (length xs) output) /\
  (forall op time input output py_in x,
      prepare_input op input = (py_in, Normal) ->
      py_fn op (callback_args op time py_in) = Ok (PyFloat x) ->
      output <> [] ->
      snd (fst (call op time input output)) = through_float x :: tl output) /\
  (forall op time input output,
      exists written,
        snd (fst (call op time input output))
        = written ++ skipn (length written) output /\
        Forall (fun y => exists x, y = through_float x) written) /\
  through_float (S754_finite false 7205759403792794 (-56))
  = S754_finite false 7205759511166976 (-56) /\
  through_float (dbl 1 0) = dbl 1 0.
Proof.
  split; [|split; [|split; [|split; [|split; [|split]]]]].
  - intros key xs. unfold add_signal. cbn [is_vector ndim shape length Nat.eqb].
    now rewrite ndarray_to_vector_rounds.
  - intros key r c xs Hlen. unfold add_signal. cbn [is_vector ndim shape length Nat.eqb].
    now rewrite ndarray_to_matrix_rounds.
  - intros op time input output py_in o xs Hfill Hfn Hh.
    destruct (@call_store op time input output py_in o Hfill Hfn) as [-> _].
    rewrite (@store_output_sequence output o xs Hh).
    destruct (length output <=? length xs)%nat eqn:E; cbn [fst].
    + apply Nat.leb_le in E. rewrite skipn_all2 by exact E.
      now rewrite app_nil_r.
    + apply Nat.leb_gt in E. rewrite firstn_all2 by lia. reflexivity.
  - intros op time input output py_in x Hfill Hfn Hne.
    destruct (@call_store op time input output py_in (PyFloat x) Hfill Hfn)
      as [-> _].
    destruct output as [|y rest]; [congruence|]. reflexivity.
  - intros op time input output. unfold call.
    destruct (prepare_input op input) as [py_in [|e|]]; try (now exists []).
    destruct (py_fn op (callback_args op time py_in)) as [o| |];
      try (now exists []).
    destruct (store_output_written output o) as (written & Hw & Hall).
    destruct (store_output output o) as [out how]. simpl in *.
    now exists written.
  - reflexivity.
  - reflexivity.
Qed.

Lemma python_values_go_through_float_witness :
  add_signal 7 {| shape := [2; 2]%nat;
                  data := [dbl 1 0; S754_finite false 7205759403792794 (-56);
                           dbl 3 0; dbl 4 0] |}
  = Ok (matrix_signal 7
          (map (fun i => map (fun j =>
                  through_float
                    (nth (i * 2 + j)
                         [dbl 1 0; S754_finite false 7205759403792794 (-56);
                          dbl 3 0; dbl 4 0] (S754_zero false)))
                (seq 0 2)) (seq 0 2))) /\
  snd (fst (call (returning
                    (PyArray {| shape := [2%nat];
                                data := [S754_finite false 7205759403792794 (-56);
                                         dbl 1 0] |}))
                 (S754_zero false) []
                 [S754_zero false; S754_zero false; dbl 9 0]))
  = [S754_finite false 7205759511166976 (-56); dbl 1 0; dbl 9 0] /\
  snd (fst (call (returning (PyFloat (S754_finite false 7205759403792794 (-56))))
                 (S754_zero false) [] [S754_zero false; dbl 9 0]))
  = [S754_finite false 7205759511166976 (-56); dbl 9 0].
Proof.
  split; [|split].
  - destruct python_values_go_through_float as (_ & H & _).
    apply (H 7 2%nat 2%nat). reflexivity.
  - destruct python_values_go_through_float as (_ & _ & H & _).
    apply (H (returning
                (PyArray {| shape := [2%nat];
                            data := [S754_finite false 7205759403792794 (-56);
                                     dbl 1 0] |}))
             (S754_zero false) [] [S754_zero false; S754_zero false; dbl 9 0] []
             (PyArray {| shape := [2%nat];
                         data := [S754_finite false 7205759403792794 (-56);
                                  dbl 1 0] |})
             [S754_finite false 7205759403792794 (-56); dbl 1 0]).
    + reflexivity.
    + reflexivity.
    + right. reflexivity.
  - destruct python_values_go_through_float as (_ & _ & _ & H & _).
    apply (H (returning (PyFloat (S754_finite false 7205759403792794 (-56))))
             (S754_zero false) [] [S754_zero false; dbl 9 0] []
             (S754_finite false 7205759403792794 (-56))).
    + reflexivity.
    + reflexivity.
    + discriminate.
Defined.

End PythonFacts.

(** ** The order of [float_lt] *)
Section FloatOrder.

Lemma float_lt_key x y :
  is_nan x = false -> is_nan y = false ->
  (float_lt x y = true <-> lex_lt (float_key x) (float_key y)).
Proof.
  unfold float_lt, SFltb, SFcompare.
  destruct x as [sx|sx| |sx mx ex], y as [sy|sy| |sy my ey];
    simpl; try discriminate; intros _ _;
    try (destruct sx); try (destruct sy); simpl;
    try (split; [discriminate | lia]);
    try (split; [reflexivity | lia]);
    try (split; [lia | reflexivity]).
  - change (Pos.compare_cont Eq mx my) with (Pos.compare mx my).
    destruct (Z.compare_spec ex ey); destruct (Pos.compare_spec mx my); simpl;
      split; intros; try discriminate; try reflexivity; lia.
  - change (Pos.compare_cont Eq mx my) with (Pos.compare mx my).
    destruct (Z.compare_spec ex ey); destruct (Pos.compare_spec mx my); simpl;
      split; intros; try discriminate; try reflexivity; lia.
Qed.

Lemma float_lt_nan_l x y : is_nan x = true -> float_lt x y = false.
Proof. destruct x; try discriminate. reflexivity. Qed.

Lemma float_lt_nan_r x y : is_nan y = true -> float_lt x y = false.
Proof. destruct y; try discriminate. destruct x; reflexivity. Qed.

Lemma float_lt_not_nan x y :
  float_lt x y = true -> is_nan x = false /\ is_nan y = false.
Proof.
  intros H. destruct (is_nan x) eqn:Hx.
  - rewrite float_lt_nan_l in H by exact Hx. discriminate.
  - destruct (is_nan y) eqn:Hy; [|auto].
    rewrite float_lt_nan_r in H by exact Hy. discriminate.
Qed.

Lemma float_lt_asym x y : float_lt x y = true -> float_lt y x = false.
Proof.
  intros H. destruct (float_lt_not_nan _ _ H) as [Hx Hy].
  apply (float_lt_key x y Hx Hy) in H.
  destruct (float_lt y x) eqn:E; [|reflexivity].
  apply (float_lt_key y x Hy Hx) in E.
  destruct (float_key x) as [[a1 a2] a3], (float_key y) as [[b1 b2] b3].
  simpl in *. lia.
Qed.

Lemma float_lt_trans x y z :
  float_lt x y = true -> float_lt y z = true -> float_lt x z = true.
Proof.
  intros H1 H2.
  destruct (float_lt_not_nan _ _ H1) as [Hx Hy].
  destruct (float_lt_not_nan _ _ H2) as [_ Hz].
  apply (float_lt_key x y Hx Hy) in H1. apply (float_lt_key y z Hy Hz) in H2.
  apply (float_lt_key x z Hx Hz).
  destruct (float_key x) as [[a1 a2] a3], (float_key y) as [[b1 b2] b3],
           (float_key z) as [[c1 c2] c3].
  simpl in *. lia.
Qed.

(** Without NaN, "not less than" is transitive: the order is total. *)
Lemma float_ge_trans x y z :
  is_nan x = false -> is_nan y = false -> is_nan z = false ->
  float_lt x y = false -> float_lt y z = false -> float_lt x z = false.
Proof.
  intros Hx Hy Hz H1 H2.
  destruct (float_lt x z) eqn:E; [|reflexivity].
  apply (float_lt_key x z Hx Hz) in E.
  assert (N1 : ~ lex_lt (float_key x) (float_key y)).
  { intros C. apply (float_lt_key x y Hx Hy) in C. congruence. }
  assert (N2 : ~ lex_lt (float_key y) (float_key z)).
  { intros C. apply (float_lt_key y z Hy Hz) in C. congruence. }
  destruct (float_key x) as [[a1 a2] a3], (float_key y) as [[b1 b2] b3],
           (float_key z) as [[c1 c2] c3].
  simpl in *. lia.
Qed.

End FloatOrder.

(** ** The order of the operators *)
Section OperatorOrder.

Import Chunk.

Lemma insert_op_perm op l : Permutation (l ++ [op]) (insert_op op l).
Proof.
  induction l as [|y l IH]; simpl.
  - apply Permutation_refl.
  - destruct (compare_op_ptr op y).
    + change (op :: y :: l) with ([op] ++ (y :: l)).
      change (y :: l ++ [op]) with ((y :: l) ++ [op]).
      apply Permutation_app_comm.
    + now constructor.
Qed.

Lemma insert_op_Forall (Q : Operator -> Prop) op l :
  Q op -> Forall Q l -> Forall Q (insert_op op l).
Proof.
  intros Hop Hl. eapply Permutation_Forall; [apply insert_op_perm|].
  apply Forall_app. split; auto.
Qed.

Lemma insert_op_sorted op l :
  StronglySorted may_precede l -> StronglySorted may_precede (insert_op op l).
Proof.
  induction 1 as [|y l Hs IH Hy]; simpl.
  - repeat constructor.
  - destruct (compare_op_ptr op y) eqn:E.
    + constructor; [now constructor|]. constructor.
      * now apply float_lt_asym.
      * rewrite Forall_forall in *. intros z Hz. unfold may_precede in *.
        destruct (compare_op_ptr z op) eqn:E'; [|reflexivity].
        pose proof (float_lt_trans _ _ _ E' E) as C.
        unfold compare_op_ptr in Hy. rewrite (Hy z Hz) in C. discriminate.
    + constructor; [exact IH|]. now apply insert_op_Forall.
Qed.

Lemma fold_insert_sorted l : forall acc,
  StronglySorted may_precede acc ->
  StronglySorted may_precede (fold_left (fun s op => insert_op op s) l acc).
Proof.
  induction l as [|x l IH]; intros acc H; simpl; auto using insert_op_sorted.
Qed.

Lemma fold_insert_perm l : forall acc,
  Permutation (acc ++ l) (fold_left (fun s op => insert_op op s) l acc).
Proof.
  induction l as [|x l IH]; intros acc; simpl.
  - now rewrite app_nil_r.
  - eapply Permutation_trans; [|apply IH].
    change (x :: l) with ([x] ++ l). rewrite app_assoc.
    apply Permutation_app_tail. apply insert_op_perm.
Qed.

(** An operator that follows [y] in the order does not have the index of an
    operator that has the index of [y]. *)
Lemma after_not_same x y w :
  ordered x -> ordered y -> ordered w ->
  same_index x y = true -> compare_op_ptr y w = true -> same_index x w = false.
Proof.
  unfold ordered, same_index, compare_op_ptr. intros Hx Hy Hw Hs Hlt.
  apply andb_true_iff in Hs as [H1 H2].
  apply negb_true_iff in H1, H2.
  destruct (float_lt (get_index x) (get_index w)) eqn:E; [reflexivity|].
  rewrite (float_ge_trans _ _ _ Hy Hx Hw H2 E) in Hlt. discriminate.
Qed.

Lemma insert_op_stable x op l :
  ordered x -> ordered op -> Forall ordered l ->
  StronglySorted may_precede l ->
  filter (same_index x) (insert_op op l) = filter (same_index x) (l ++ [op]).
Proof.
  intros Hx Hop Hl Hs. induction Hs as [|z l Hs IH Hz]; [reflexivity|].
  apply Forall_cons_iff in Hl as [Hnz Hl]. cbn [insert_op].
  destruct (compare_op_ptr op z) eqn:E.
  - assert (Hc : filter (same_index x) (op :: z :: l)
                 = if same_index x op then op :: filter (same_index x) (z :: l)
                   else filter (same_index x) (z :: l)) by reflexivity.
    rewrite Hc, filter_app. clear Hc.
    change (filter (same_index x) [op])
      with (if same_index x op then [op] else []).
    destruct (same_index x op) eqn:Sx; [|now rewrite app_nil_r].
    assert (Hall : Forall (fun w => compare_op_ptr op w = true) (z :: l)).
    { constructor; [exact E|]. rewrite Forall_forall in *. intros w Hw.
      destruct (compare_op_ptr op w) eqn:E'; [reflexivity|].
      unfold may_precede, ordered, compare_op_ptr in *.
      rewrite (float_ge_trans _ _ _ Hop (Hl w Hw) Hnz E' (Hz w Hw)) in E.
      discriminate. }
    assert (Hnone : filter (same_index x) (z :: l) = []).
    { assert (Hord : Forall ordered (z :: l)) by now constructor.
      clear - Hall Hord Hx Hop Sx.
      induction Hall as [|w l' Hw Hall IH']; [reflexivity|].
      apply Forall_cons_iff in Hord as [Hnw Hord]. cbn [filter].
      rewrite (@after_not_same x op w Hx Hop Hnw Sx Hw). now apply IH'. }
    rewrite Hnone. reflexivity.
  - cbn [app filter]. rewrite (IH Hl). reflexivity.
Qed.

Lemma fold_insert_stable x l : forall acc,
  ordered x -> Forall ordered acc -> Forall ordered l ->
  StronglySorted may_precede acc ->
  filter (same_index x) (fold_left (fun s op => insert_op op s) l acc)
  = filter (same_index x) (acc ++ l).
Proof.
  induction l as [|y l IH]; intros acc Hx Hacc Hl Hs; simpl.
  - now rewrite app_nil_r.
  - apply Forall_cons_iff in Hl as [Hy Hl].
    rewrite IH; auto using insert_op_sorted, insert_op_Forall.
    rewrite !filter_app, insert_op_stable by auto.
    rewrite filter_app. cbn [filter]. rewrite <- app_assoc.
    destruct (same_index x y); reflexivity.
Qed.

Lemma sorted_nth_error l : StronglySorted may_precede l ->
  forall i j a b, (i < j)%nat ->
    nth_error l i = Some a -> nth_error l j = Some b ->
    compare_op_ptr b a = false.
Proof.
  induction 1 as [|y l Hs IH Hy]; intros i j a b Hij Ha Hb.
  - destruct i; discriminate.
  - destruct j as [|j]; [lia|]. simpl in Hb. destruct i as [|i]; simpl in Ha.
    + inversion Ha; subst. rewrite Forall_forall in Hy. apply Hy.
      eapply nth_error_In; eauto.
    + apply (IH i j a b); [lia | exact Ha | exact Hb].
Qed.

Lemma finalize_build_is_sort merged barrier c :
  operator_list (finalize_build merged barrier c)
  = stable_sort (operator_list c ++ merged ++ [barrier]).
Proof.
  unfold finalize_build, stable_sort. cbn [operator_list].
  symmetry. apply fold_left_app.
Qed.

(** C3. After [finalize_build], the operator list the step loop runs through
    holds the operators that were added (by [add_op], then the operators
    installed at finalize), in ascending order of index: an operator never
    comes before another one whose index is less; and the operators of equal
    index are in the order in which they were added.  The indices are the
    total-order keys of the specification: none is a NaN. *)
Theorem finalize_build_orders_operators merged barrier c :
  let added := operator_list c ++ merged ++ [barrier] in
  Forall ordered added ->
  let ops := operator_list (finalize_build merged barrier c) in
  Permutation added ops /\
  (forall i j a b, (i < j)%nat ->
     nth_error ops i = Some a -> nth_error ops j = Some b ->
     float_lt (get_index b) (get_index a) = false) /\
  (forall x, ordered x ->
     filter (same_index x) ops = filter (same_index x) added).
Proof.
  intros added Hord ops. subst ops. rewrite finalize_build_is_sort. fold added.
  unfold stable_sort. split; [|split].
  - apply (fold_insert_perm added []).
  - intros i j a b Hij Ha Hb.
    apply (@sorted_nth_error (fold_left (fun s op => insert_op op s) added []))
      with (i := i) (j := j); auto.
    apply fold_insert_sorted. constructor.
  - intros x Hx. rewrite fold_insert_stable; auto; constructor.
Qed.

Lemma finalize_build_orders_operators_witness :
  let c := add_op (barrier_op (flt 1 0))
             (add_op (barrier_op (flt 2 0))
                (add_op (barrier_op (flt 1 0))
                   (add_op (barrier_op (flt 3 0))
                      (new_chunk (S754_zero false))))) in
  let added := operator_list c ++ [] ++ [barrier_op (S754_infinity false)] in
  let ops := operator_list (finalize_build [] (barrier_op (S754_infinity false)) c) in
  Permutation added ops /\
  (forall i j a b, (i < j)%nat ->
     nth_error ops i = Some a -> nth_error ops j = Some b ->
     float_lt (get_index b) (get_index a) = false) /\
  (forall x, ordered x ->
     filter (same_index x) ops = filter (same_index x) added).
Proof.
  apply (@finalize_build_orders_operators [] (barrier_op (S754_infinity false))).
  repeat constructor.
Defined.

(** Indices 3, 1, 2, 1 in the order of addition: the step loop sees
    1, 1, 2, 3 and then the barrier. *)
Example finalize_build_example :
  map get_index
    (operator_list
       (finalize_build [] (barrier_op (S754_infinity false))
          (add_op (barrier_op (flt 1 0))
             (add_op (barrier_op (flt 2 0))
                (add_op (barrier_op (flt 1 0))
                   (add_op (barrier_op (flt 3 0))
                      (new_chunk (S754_zero false))))))))
  = [flt 1 0; flt 1 0; flt 2 0; flt 3 0; S754_infinity false].
Proof. reflexivity. Qed.

End OperatorOrder.

(** ** Probes *)
Section ProbeFacts.

Import Chunk.

Lemma lookup_map_snd (A B : Type) (f : A -> B) key (m : list (key_type * A)) :
  lookup key (map (fun kp => (fst kp, f (snd kp))) m) = option_map f (lookup key m).
Proof.
  induction m as [|[k v] m IH]; simpl; [reflexivity|].
  destruct (k =? key); [reflexivity|exact IH].
Qed.

Lemma map_fst_map_snd (A B : Type) (f : A -> B) (m : list (key_type * A)) :
  map fst (map (fun kp => (fst kp, f (snd kp))) m) = map fst m.
Proof. rewrite map_map. reflexivity. Qed.

(** What a flush hands to the sink under one key is the buffer of the probe
    of that key. *)
Lemma flushed_of_key key (pm : list (key_type * Probe)) :
  NoDup (map fst pm) ->
  map snd (filter (fun kv : key_type * list dtype => fst kv =? key)
             (flat_map (fun kp => map (pair (fst kp)) (buffer (snd kp))) pm))
  = match lookup key pm with
    | Some p => buffer p
    | None => []
    end.
Proof.
  induction pm as [|[k p] pm IH]; intros Hnd; simpl; [reflexivity|].
  inversion Hnd as [|? ? Hnotin Hnd']; subst.
  rewrite filter_app, map_app, IH by exact Hnd'.
  destruct (Z.eqb_spec k key) as [->|Hne].
  - assert (Hnone : lookup key pm = None).
    { clear - Hnotin. induction pm as [|[k' p'] pm IH]; simpl in *; [reflexivity|].
      destruct (Z.eqb_spec k' key) as [->|]; [tauto|]. apply IH. tauto. }
    rewrite Hnone, app_nil_r.
    induction (buffer p) as [|b bs IHb]; simpl; [reflexivity|].
    rewrite Z.eqb_refl. simpl. now rewrite IHb.
  - assert (Hempty : filter (fun kv : key_type * list dtype => fst kv =? key)
                       (map (pair k) (buffer p)) = []).
    { induction (buffer p) as [|b bs IHb]; simpl; [reflexivity|].
      replace (k =? key) with false by (symmetry; now apply Z.eqb_neq).
      exact IHb. }
    rewrite Hempty. reflexivity.
Qed.

(** One step of the loop, seen from one probe. *)
Lemma collected_run_step key p c :
  NoDup (map fst (probe_map c)) ->
  lookup key (probe_map c) = Some p ->
  exists p',
    lookup key (probe_map (run_step c)) = Some p' /\
    target p' = target p /\ period p' = period p /\
    NoDup (map fst (probe_map (run_step c))) /\
    n_steps (run_step c) = n_steps c + 1 /\
    collected key (run_step c)
    = collected key c
      ++ (if Z.rem (n_steps c) (period p) =? 0
          then [read_view (signal_map (run_step c)) (target p)] else []).
Proof.
  intros Hnd Hl. unfold run_step.
  set (signals := run_operators (operator_list c) (signal_map c)).
  destruct (Z.rem (n_steps c + 1) FLUSH_PROBES_EVERY =? 0).
  - exists (clear (sample signals (n_steps c) p)).
    unfold flush_probes, collected. cbn [probe_map sim_log n_steps signal_map].
    rewrite !lookup_map_snd, Hl. cbn [option_map].
    rewrite !map_fst_map_snd.
    repeat split; try (unfold sample; destruct (Z.rem _ _ =? 0); reflexivity); auto.
    rewrite filter_app, map_app, flushed_of_key by (now rewrite map_fst_map_snd).
    rewrite lookup_map_snd, Hl. cbn [option_map clear buffer].
    rewrite app_nil_r, <- app_assoc. f_equal.
    unfold sample. destruct (Z.rem (n_steps c) (period p) =? 0); cbn [buffer];
      [reflexivity|now rewrite app_nil_r].
  - exists (sample signals (n_steps c) p).
    unfold collected. cbn [probe_map sim_log n_steps signal_map].
    rewrite !lookup_map_snd, Hl. cbn [option_map].
    rewrite !map_fst_map_snd.
    repeat split; try (unfold sample; destruct (Z.rem _ _ =? 0); reflexivity); auto.
    rewrite <- app_assoc. f_equal.
    unfold sample. destruct (Z.rem (n_steps c) (period p) =? 0); cbn [buffer];
      [reflexivity|now rewrite app_nil_r].
Qed.

Lemma filter_seq_shift (f : nat -> bool) n :
  filter f (seq 1 n) = map S (filter (fun s => f (S s)) (seq 0 n)).
Proof.
  rewrite <- seq_shift. induction (seq 0 n) as [|a l IH]; simpl; [reflexivity|].
  destruct (f (S a)); simpl; now rewrite IH.
Qed.

(** The samples of [n] steps: one for each step whose counter is a multiple
    of the period, read from the signals as that step left them. *)
Lemma collected_run_n_steps key n : forall c p,
  NoDup (map fst (probe_map c)) ->
  lookup key (probe_map c) = Some p ->
  collected key (run_n_steps n c)
  = collected key c
    ++ map (fun s => read_view (signal_map (run_n_steps (S s) c)) (target p))
           (filter (fun s => Z.rem (n_steps c + Z.of_nat s) (period p) =? 0)
                   (seq 0 n)).
Proof.
  induction n as [|n IH]; intros c p Hnd Hl.
  - simpl. now rewrite app_nil_r.
  - destruct (@collected_run_step key p c Hnd Hl)
      as (p' & Hl' & Ht & Hp & Hnd' & Hn & Hc).
    cbn [run_n_steps]. rewrite (IH (run_step c) p' Hnd' Hl').
    rewrite Hc, Ht, Hp, Hn, <- app_assoc. f_equal.
    cbn [seq filter]. rewrite Z.add_0_r.
    rewrite filter_seq_shift.
    assert (Hf : filter (fun s => Z.rem (n_steps c + 1 + Z.of_nat s) (period p) =? 0)
                        (seq 0 n)
                 = filter (fun s => Z.rem (n_steps c + Z.of_nat (S s)) (period p) =? 0)
                          (seq 0 n)).
    { apply filter_ext. intros s. f_equal. f_equal. lia. }
    rewrite Hf.
    destruct (Z.rem (n_steps c) (period p) =? 0); cbn [map app];
      rewrite map_map; reflexivity.
Qed.

(** How many of the steps 0, ..., n-1 are multiples of [p]: the ceiling of
    [n / p]. *)
Lemma multiples_below p n :
  1 <= p ->
  Z.of_nat (length (filter (fun s => Z.rem (Z.of_nat s) p =? 0) (seq 0 n)))
  = (Z.of_nat n + p - 1) / p.
Proof.
  intros Hp. induction n as [|n IH].
  - simpl. rewrite Z.div_small; lia.
  - rewrite seq_S, filter_app, length_app, Nat2Z.inj_add, IH. cbn [filter Nat.add].
    pose proof (@div_step p ltac:(lia) (Z.of_nat n + p) ltac:(lia)) as D.
    replace (Z.of_nat (S n) + p - 1) with (Z.of_nat n + p) by lia.
    rewrite Z.rem_mod_nonneg in D by lia.
    replace ((Z.of_nat n + p) mod p) with (Z.of_nat n mod p) in D
      by (rewrite <- (Z_mod_plus_full (Z.of_nat n) 1 p); f_equal; lia).
    rewrite Z.rem_mod_nonneg by lia.
    destruct (Z.of_nat n mod p =? 0); simpl length; lia.
Qed.

(** C8. A probe of period [p >= 1], attached to a chunk whose step counter
    is 0 and that has collected nothing yet: over a run of [n] steps it
    samples exactly on the steps whose counter is a multiple of [p], each
    sample being the target view as the operators of that step left it; the
    number of samples is the ceiling of [n / p], that is [(n + p - 1) / p],
    the [k] with [(k - 1) * p < n <= k * p]. *)
Theorem probe_samples_every_period key p n c :
  NoDup (map fst (probe_map c)) ->
  lookup key (probe_map c) = Some p ->
  1 <= period p ->
  n_steps c = 0 ->
  collected key c = [] ->
  let samples := collected key (run_n_steps n c) in
  let k := Z.of_nat (length samples) in
  samples
  = map (fun s => read_view (signal_map (run_n_steps (S s) c)) (target p))
        (filter (fun s => Z.of_nat s mod period p =? 0) (seq 0 n)) /\
  k = (Z.of_nat n + period p - 1) / period p /\
  (k - 1) * period p < Z.of_nat n <= k * period p.
Proof.
  intros Hnd Hl Hp H0 Hc samples k. subst k samples.
  rewrite (@collected_run_n_steps key n c p Hnd Hl), Hc, H0. cbn [app].
  assert (Hf : filter (fun s => Z.rem (0 + Z.of_nat s) (period p) =? 0) (seq 0 n)
               = filter (fun s => Z.of_nat s mod period p =? 0) (seq 0 n)).
  { apply filter_ext. intros s. rewrite Z.add_0_l, Z.rem_mod_nonneg by lia.
    reflexivity. }
  rewrite Hf. split; [reflexivity|].
  rewrite length_map.
  assert (Hk : Z.of_nat (length (filter (fun s => Z.of_nat s mod period p =? 0)
                                        (seq 0 n)))
               = (Z.of_nat n + period p - 1) / period p).
  { rewrite <- multiples_below by exact Hp. do 2 f_equal.
    apply filter_ext. intros s. now rewrite Z.rem_mod_nonneg by lia. }
  rewrite Hk. split; [reflexivity|].
  pose proof (Z.div_mod (Z.of_nat n + period p - 1) (period p) ltac:(lia)) as E.
  pose proof (Z.mod_pos_bound (Z.of_nat n + period p - 1) (period p) ltac:(lia)) as B.
  nia.
Qed.

Lemma probe_samples_every_period_witness :
  let c := add_probe 100 (whole 1 1) 3
             (add_op (Reset (flt 1 0) (whole 1 1) (dbl 7 (-1)))
                (add_base_signal 1 [S754_zero false]
                   (new_chunk (S754_finite false 4611686018427388 (-62))))) in
  let p := {| target := whole 1 1; period := 3; buffer := [] |} in
  let samples := collected 100 (run_n_steps 10 c) in
  let k := Z.of_nat (length samples) in
  samples
  = map (fun s => read_view (signal_map (run_n_steps (S s) c)) (target p))
        (filter (fun s => Z.of_nat s mod period p =? 0) (seq 0 10)) /\
  k = (Z.of_nat 10 + period p - 1) / period p /\
  (k - 1) * period p < Z.of_nat 10 <= k * period p.
Proof.
  apply (@probe_samples_every_period 100
           {| target := whole 1 1; period := 3; buffer := [] |} 10%nat).
  - repeat constructor. intros [].
  - reflexivity.
  - simpl. lia.
  - reflexivity.
  - reflexivity.
Defined.

(** Scenario 1 of the specification: a signal of one element, [Reset(a, 3.5)],
    a probe of period 1, two steps: the probe yields 3.5 twice. *)
Example scalar_reset_probe :
  collected 100
    (run_n_steps 2
       (finalize_build [] (barrier_op (S754_infinity false))
          (add_probe 100 (whole 1 1) 1
             (add_op (Reset (flt 1 0) (whole 1 1) (dbl 7 (-1)))
                (add_base_signal 1 [S754_zero false]
                   (new_chunk (S754_finite false 4611686018427388 (-62))))))))
  = [[dbl 7 (-1)]; [dbl 7 (-1)]].
Proof. reflexivity. Qed.

(** A period of 3 over 10 steps: samples at steps 0, 3, 6 and 9. *)
Example probe_period_3 :
  length (collected 100
    (run_n_steps 10
       (add_probe 100 (whole 1 1) 3
          (add_base_signal 1 [S754_zero false] (new_chunk (S754_zero false))))))
  = 4%nat.
Proof. reflexivity. Qed.

End ProbeFacts.

(** ** The simulator's reset *)
Section SimulatorFacts.

Import Chunk Simulator.

(** C2, on the code.  [MpiSimulator::reset] changes nothing.  After the run
    of scenario 5 of the specification and a reset, signal [a] still holds 5
    (its initial value is 9), signal [b] still holds 5 (initially 0), the
    time is still [dt] (the [float] nearest to 0.001, which is what the
    constructor keeps of the 0.001 it is given) and the simulator still
    holds the sample of the probe: the state is not a reset state. *)
Theorem reset_leaves_run_state :
  (forall sim, reset sim = sim) /\
  exists sim,
    scenario_reset_restores = Some sim /\
    signal_map (master_chunk (reset sim))
    = [(1, [dbl 5 0]); (2, [dbl 5 0])] /\
    signal_init_value (master_chunk (reset sim))
    = [(1, [dbl 9 0]); (2, [S754_zero false])] /\
    time (master_chunk (reset sim)) = S754_finite false 4611686237470720 (-62) /\
    time (master_chunk (reset sim))
    = through_float (S754_finite false 4611686018427388 (-62)) /\
    get_probe_data 100 (reset sim) = Some [[dbl 5 0]] /\
    ~ is_reset (reset sim).
Proof.
  split; [reflexivity|].
  destruct scenario_reset_restores as [sim|] eqn:E; [|vm_compute in E; discriminate].
  exists sim. vm_compute in E. inversion E; subst sim; clear E.
  repeat split; try reflexivity.
  intros (H & _). vm_compute in H. discriminate.
Qed.

End SimulatorFacts.

(** ** The worker's build loop *)
Section WorkerFacts.

Import Worker.

(** The loop takes the records one per iteration and makes the
    corresponding calls, in order. *)
Lemma build_loop_records records : forall fuel c tail,
  build_loop (length records + fuel) c (flat_map encode records ++ tail)
  = build_loop fuel (with_calls c records) tail.
Proof.
  induction records as [|r records IH]; intros fuel c tail.
  - unfold with_calls. rewrite app_nil_r. destruct c; reflexivity.
  - assert (Hc : with_calls (called c r) records = with_calls c (r :: records)).
    { unfold with_calls, called. cbn [label dt calls].
      now rewrite <- app_assoc. }
    rewrite <- Hc, <- IH.
    destruct r; reflexivity.
Qed.

Lemma encode_length records :
  (length records <= length (flat_map encode records))%nat.
Proof.
  induction records as [|r records IH]; simpl; [lia|].
  rewrite length_app. destruct r; simpl; lia.
Qed.

(** From the stream of [start_worker] to the loop after the records. *)
Lemma start_worker_records l d records tail :
  exists fuel,
    start_worker (MString l :: MFloat d :: flat_map encode records ++ tail)
    = build_loop (S fuel) {| label := l; dt := d; calls := records |} tail.
Proof.
  unfold start_worker, recv_string, recv_float.
  pose proof (encode_length records) as Hlen.
  exists (length (flat_map encode records ++ tail) - length records)%nat.
  replace (S (length (flat_map encode records ++ tail)))
    with (length records
          + S (length (flat_map encode records ++ tail) - length records))%nat
    by (rewrite length_app; lia).
  rewrite build_loop_records. reflexivity.
Qed.

(** C9. The build loop of the worker, on the stream rank 0 sends after the
    label and the time step of the chunk:
    - records followed by the stop flag: the loop makes the calls of the
      records on the chunk, in order, and is left when the stop flag is
      received, the messages after it being left on the stream;
    - records followed by a flag that is none of the four: the worker throws
      [runtime_error];
    - records and no stop flag: the loop is not left, the worker waits for
      the next flag. *)
Theorem worker_build_loop l d records :
  (forall rest,
      start_worker (MString l :: MFloat d
                    :: flat_map encode records ++ MInt stop_flag :: rest)
      = Built {| label := l; dt := d; calls := records |} rest) /\
  (forall s rest, valid_flag s = false ->
      start_worker (MString l :: MFloat d
                    :: flat_map encode records ++ MInt s :: rest)
      = Thrown "Worker received invalid flag from master.") /\
  start_worker (MString l :: MFloat d :: flat_map encode records) = Blocked.
Proof.
  split; [|split].
  - intros rest.
    destruct (start_worker_records l d records (MInt stop_flag :: rest)) as [fuel ->].
    reflexivity.
  - intros s rest Hs.
    destruct (start_worker_records l d records (MInt s :: rest)) as [fuel ->].
    unfold valid_flag in Hs.
    apply orb_false_iff in Hs as [Hs H4]. apply orb_false_iff in Hs as [Hs H3].
    apply orb_false_iff in Hs as [H1 H2].
    cbn [build_loop recv_int]. now rewrite H1, H2, H3, H4.
  - rewrite <- (app_nil_r (flat_map encode records)).
    destruct (start_worker_records l d records []) as [fuel ->].
    reflexivity.
Qed.

Lemma worker_build_loop_witness :
  start_worker [MString "Chunk 1"; MFloat (flt 1 (-10));
                MInt 2; MString "Reset"; MInt 9; MInt 4]
  = Thrown "Worker received invalid flag from master.".
Proof.
  destruct (worker_build_loop "Chunk 1" (flt 1 (-10)) [add_op "Reset"])
    as (_ & H & _).
  apply (H 9 [MInt 4]). reflexivity.
Defined.

Example worker_builds :
  start_worker [MString "Chunk 1"; MFloat (flt 1 (-10));
                MInt 1; MKey 7; MString "a"; MMatrix [[dbl 9 0]];
                MInt 2; MString "Reset";
                MInt 3; MKey 100; MString "a"; MInt 1;
                MInt 4; MInt 5]
  = Built {| label := "Chunk 1"; dt := flt 1 (-10);
             calls := [add_base_signal 7 "a" [[dbl 9 0]]; add_op "Reset";
                       add_probe 100 "a" 1] |}
          [MInt 5].
Proof. reflexivity. Qed.

End WorkerFacts.

(* ================================================================== *)
(** * Part III. Further properties of the code                          *)
(* ================================================================== *)

(** ** The link: conservation of messages and blocking *)
Section LinkProgress.

Import Link.



(** X2. The receiving chunk is blocked in [MPIRecv::operator()] exactly
    while it is one step ahead of the sending chunk: as soon as the sender
    has run as many steps as the receiver, the receiver's next step goes
    through (after the delivery of the message, if it is still in flight). *)
Theorem receiver_blocks_only_when_ahead dst src tag x0 y0 w :
  length x0 = length y0 ->
  reachable (init dst src tag x0 y0) w ->
  (can_advance w <-> (length (seen w) <= length (sent w))%nat).
Proof.
  intros Hlen Hr.
  assert (HI : Inv (length x0) y0 w).
  { eapply Inv_reachable; [|exact Hr]. apply Inv_init; auto. }
  destruct (inv_wire HI) as (taken & Hle & Hwire & Hph).
  unfold receiver_phase in Hph. unfold can_advance.
  unfold receiver_step, deliver_step, MPIRecv.call, MPIRecv.deliver.
  destruct (MPIRecv.first_call (receiver w)) eqn:Hfc,
           (MPIRecv.request (receiver w)) eqn:Hreq; try contradiction.
  - destruct Hph as [Hs ->]. rewrite Hs. simpl. split; [lia|].
    intros _. left. eexists. reflexivity.
  - split.
    + intros [[w' H]|(w1 & w2 & H1 & H2)]; [discriminate|].
      destruct (wire w) as [|m wire'] eqn:Hw; [discriminate|].
      assert (Hlt : (taken < length (sent w))%nat).
      { destruct (Nat.lt_ge_cases taken (length (sent w))) as [|Hge]; [assumption|].
        rewrite skipn_all2 in Hwire by exact Hge. discriminate. }
      lia.
    + intros Hle'. right.
      destruct (wire w) as [|m wire'] eqn:Hw.
      * exfalso. assert (Hl : length (skipn taken (sent w)) = 0%nat)
          by now rewrite <- Hwire.
        rewrite length_skipn in Hl. lia.
      * eexists. eexists. split; [reflexivity|].
        reflexivity.
  - destruct Hph as (Hs & _). split; [lia|].
    intros _. left. eexists. reflexivity.
Qed.

Lemma receiver_blocks_only_when_ahead_witness :
  exists wA,
    receiver_step (init 1 0 7 [S754_zero false] [S754_zero false]) = Some wA /\
    ~ can_advance wA /\
    wire (sender_step [dbl 1 0] wA) = [[dbl 1 0]] /\
    MPIRecv.request (receiver (sender_step [dbl 1 0] wA)) = Posted /\
    can_advance (sender_step [dbl 1 0] wA).
Proof.
  destruct (receiver_step (init 1 0 7 [S754_zero false] [S754_zero false]))
    as [wA|] eqn:E; [|vm_compute in E; discriminate].
  exists wA. split; [reflexivity|].
  assert (HrA : reachable (init 1 0 7 [S754_zero false] [S754_zero false]) wA).
  { eapply reach_step; [apply reach_init|]. apply step_receiver. exact E. }
  assert (HrB : reachable (init 1 0 7 [S754_zero false] [S754_zero false])
                          (sender_step [dbl 1 0] wA)).
  { eapply reach_step; [exact HrA|]. apply step_sender.
    vm_compute in E. inversion E. reflexivity. }
  destruct (@receiver_blocks_only_when_ahead 1 0 7
              [S754_zero false] [S754_zero false] wA eq_refl HrA) as [HA _].
  destruct (@receiver_blocks_only_when_ahead 1 0 7
              [S754_zero false] [S754_zero false]
              (sender_step [dbl 1 0] wA) eq_refl HrB) as [_ HB].
  vm_compute in E. inversion E; subst wA; clear E.
  split; [|split; [|split]].
  - intros Hc. apply HA in Hc. simpl in Hc. lia.
  - reflexivity.
  - reflexivity.
  - apply HB. simpl. lia.
Defined.

End LinkProgress.

(** ** [MPIBarrier]: the barriers of a whole run *)
Section BarrierCount.

Import MPIBarrier.

(** X3. A fresh barrier operator that is invoked [n >= 1] times (the [int]
    counter not overflowing) has performed [(n - 1) / BARRIER_PERIOD]
    barriers, rounded down: none during the first [BARRIER_PERIOD]
    invocations, one more each time the count of invocations passes a
    multiple of the period. *)
Theorem barriers_after_n_invocations (P : Z) (n : nat) :
  0 < P -> (1 <= n)%nat -> Z.of_nat n <= INT_MAX ->
  Z.of_nat (barriers_in (snd (call_n P n create)) 0 n) = (Z.of_nat n - 1) / P.
Proof.
  intros HP Hn Hmax.
  rewrite call_n_spec by (simpl; lia). cbn [snd step create].
  unfold barriers_in. cbn [skipn].
  rewrite firstn_all2 by (rewrite length_map, length_seq; lia).
  destruct n as [|n]; [lia|].
  cbn [seq map concat]. unfold nth_calls at 1, due. cbn [Z.of_nat Z.add Z.eqb negb andb app].
  rewrite (@barriers_count P HP 1 n) by lia.
  replace (Z.of_nat 1 - 1) with 0 by lia. rewrite Z.div_0_l by lia.
  replace (Z.of_nat (1 + n) - 1) with (Z.of_nat (S n) - 1) by lia. lia.
Qed.

Lemma barriers_after_n_invocations_witness :
  Z.of_nat (barriers_in (snd (call_n 1000 2500 create)) 0 2500)
  = (Z.of_nat 2500 - 1) / 1000.
Proof.
  apply (@barriers_after_n_invocations 1000 2500); unfold INT_MAX; lia.
Defined.

End BarrierCount.

(** ** [compare_op_ptr] as the order of a sort *)
Section ComparatorOrder.

Import Chunk.

(** X4. [compare_op_ptr] (and [compare_indices], which compares the same
    indices) is irreflexive, asymmetric and transitive on all operators; on
    operators whose index is not a NaN, having the same index is transitive,
    so the comparison is a strict weak order, as the standard sorts require.
    With a NaN index it is not: the NaN has the same index as 1 and as 2,
    which differ. *)
Theorem compare_op_ptr_strict_weak_order :
  (forall a, compare_op_ptr a a = false) /\
  (forall a b, compare_op_ptr a b = true -> compare_op_ptr b a = false) /\
  (forall a b c, compare_op_ptr a b = true -> compare_op_ptr b c = true ->
                 compare_op_ptr a c = true) /\
  (forall a b c, ordered a -> ordered b -> ordered c ->
                 same_index a b = true -> same_index b c = true ->
                 same_index a c = true) /\
  (same_index (barrier_op (flt 1 0)) (barrier_op S754_nan) = true /\
   same_index (barrier_op S754_nan) (barrier_op (flt 2 0)) = true /\
   same_index (barrier_op (flt 1 0)) (barrier_op (flt 2 0)) = false).
Proof.
  split; [|split; [|split; [|split]]].
  - intros a. unfold compare_op_ptr.
    destruct (float_lt (get_index a) (get_index a)) eqn:E; [|reflexivity].
    now rewrite (float_lt_asym _ _ E) in E.
  - intros a b. apply float_lt_asym.
  - intros a b c. apply float_lt_trans.
  - unfold ordered, same_index, compare_op_ptr. intros a b c Ha Hb Hc H1 H2.
    apply andb_true_iff in H1 as [H1 H1']. apply andb_true_iff in H2 as [H2 H2'].
    apply negb_true_iff in H1, H1', H2, H2'.
    rewrite (float_ge_trans _ _ _ Ha Hb Hc H1 H2).
    rewrite (float_ge_trans _ _ _ Hc Hb Ha H2' H1'). reflexivity.
  - repeat split; reflexivity.
Qed.

Lemma compare_op_ptr_strict_weak_order_witness :
  same_index (barrier_op (flt 1 0)) (barrier_op (flt 1 0)) = true.
Proof.
  destruct compare_op_ptr_strict_weak_order as (_ & _ & _ & H & _).
  apply (H (barrier_op (flt 1 0)) (barrier_op (flt 1 0)) (barrier_op (flt 1 0)));
    reflexivity.
Defined.

End ComparatorOrder.

(** ** [PyFunc]: the input array and the output vector *)
Section PyFuncFacts.

Import Python.

Lemma fill_input_fits input : forall py_input,
  (length input <= length py_input)%nat ->
  fill_input py_input input = (input ++ skipn (length input) py_input, Normal).
Proof.
  induction input as [|x input IH]; intros py_input Hle.
  - destruct py_input; reflexivity.
  - destruct py_input as [|y py_input]; [simpl in Hle; lia|].
    cbn [fill_input]. rewrite IH by (simpl in Hle; lia). reflexivity.
Qed.

Lemma fill_input_short input : forall py_input,
  (length py_input < length input)%nat ->
  fill_input py_input input = (firstn (length py_input) input, Raised IndexError).
Proof.
  induction input as [|x input IH]; intros py_input Hlt.
  - simpl in Hlt. lia.
  - destruct py_input as [|y py_input]; [reflexivity|].
    cbn [fill_input]. rewrite IH by (simpl in Hlt; lia). reflexivity.
Qed.

(** X5. A [PyFunc] with an input copies the current input vector into its
    numpy array before the call.  When the array is at least as long as the
    input, the callback is called with the array holding the input followed
    by the array's own old tail (after the time, if the time is wanted), the
    operator keeps that array, and the call ends as the write-back of the
    returned object does.  When the array is shorter, the elements that fit
    are copied, [IndexError] propagates, the callback is not called and the
    output vector is untouched. *)
Theorem pyfunc_copies_input op time input output :
  supply_input op = true ->
  ((length input <= length (py_input op))%nat ->
     call op time input output
     = let py_in := input ++ skipn (length input) (py_input op) in
       let op' := {| py_fn := py_fn op; supply_time := supply_time op;
                     supply_input := true; py_input := py_in |} in
       match py_fn op ((if supply_time op then [PyFloat time] else [])
                       ++ [PyArray {| shape := [length (py_input op)];
                                      data := py_in |}]) with
       | Ok o => (op', fst (store_output output o), snd (store_output output o))
       | Raise e => (op', output, Raised e)
       | Undefined => (op', output, Undef)
       end) /\
  ((length (py_input op) < length input)%nat ->
     call op time input output
     = ({| py_fn := py_fn op; supply_time := supply_time op;
           supply_input := true;
           py_input := firstn (length (py_input op)) input |},
        output, Raised IndexError)).
Proof.
  intros Hs. split.
  - intros Hle. unfold call, prepare_input, callback_args. rewrite Hs.
    rewrite fill_input_fits by exact Hle.
    match goal with
    | |- context [@length ?T (input ++ ?tl)] =>
      replace (@length T (input ++ tl)) with (length (py_input op))
        by (rewrite length_app, length_skipn; lia)
    end.
    cbv zeta.
    destruct (py_fn op _) as [o| |]; try reflexivity.
    now destruct (store_output output o).
  - intros Hlt. unfold call, prepare_input. rewrite Hs.
    now rewrite fill_input_short.
Qed.

Lemma pyfunc_copies_input_witness :
  call {| py_fn := fun args => match args with
                               | [a] => Ok a
                               | _ => Raise TypeError
                               end;
          supply_time := false; supply_input := true;
          py_input := [S754_zero false; S754_zero false; dbl 7 0] |}
       (S754_zero false) [dbl 1 0; dbl 2 0] [dbl 9 0; dbl 9 0; dbl 9 0]
  = ({| py_fn := fun args => match args with
                             | [a] => Ok a
                             | _ => Raise TypeError
                             end;
        supply_time := false; supply_input := true;
        py_input := [dbl 1 0; dbl 2 0; dbl 7 0] |},
     [dbl 1 0; dbl 2 0; dbl 7 0], Normal) /\
  call {| py_fn := fun _ => Ok PyNone; supply_time := false;
          supply_input := true; py_input := [S754_zero false] |}
       (S754_zero false) [dbl 1 0; dbl 2 0] [dbl 9 0]
  = ({| py_fn := fun _ => Ok PyNone; supply_time := false;
        supply_input := true; py_input := [dbl 1 0] |},
     [dbl 9 0], Raised IndexError).
Proof.
  split.
  - destruct (@pyfunc_copies_input
                {| py_fn := fun args => match args with
                                        | [a] => Ok a
                                        | _ => Raise TypeError
                                        end;
                   supply_time := false; supply_input := true;
                   py_input := [S754_zero false; S754_zero false; dbl 7 0] |}
                (S754_zero false) [dbl 1 0; dbl 2 0]
                [dbl 9 0; dbl 9 0; dbl 9 0] eq_refl) as [H _].
    rewrite H by (simpl; lia). reflexivity.
  - destruct (@pyfunc_copies_input
                {| py_fn := fun _ => Ok PyNone; supply_time := false;
                   supply_input := true; py_input := [S754_zero false] |}
                (S754_zero false) [dbl 1 0; dbl 2 0] [dbl 9 0] eq_refl) as [_ H].
    apply H. simpl. lia.
Defined.

Lemma write_back_length o : forall rest i done out how,
  write_back o i done rest = (out, how) ->
  length out = (length done + length rest)%nat.
Proof.
  induction rest as [|r rest IH]; intros i done out how H.
  - simpl in H. inversion H. simpl. lia.
  - cbn [write_back] in H.
    destruct (bind (getitem o i) extract_float) as [f|e|].
    + apply IH in H. rewrite H, length_app. simpl. lia.
    + inversion H. now rewrite length_app.
    + inversion H. now rewrite length_app.
Qed.

Lemma store_output_length output o :
  length (fst (store_output output o)) = length output.
Proof.
  unfold store_output. destruct (extract_float o) as [f|e|].
  - destruct output; reflexivity.
  - destruct (write_back o 0 [] output) as [out how] eqn:W.
    apply write_back_length in W. simpl in *. exact W.
  - reflexivity.
Qed.

(** X6. [PyFunc::operator()] writes in place: whatever the callback returns
    or raises, the output vector keeps its length; and when the call fails
    before the callback has returned (the input does not fit the array, or
    the callback raises), the output vector keeps its contents. *)
Theorem pyfunc_keeps_output_length op time input output :
  length (snd (fst (call op time input output))) = length output /\
  (snd (prepare_input op input) <> Normal ->
     snd (fst (call op time input output)) = output) /\
  (forall e, py_fn op (callback_args op time (fst (prepare_input op input)))
             = Raise e ->
     snd (fst (call op time input output)) = output).
Proof.
  unfold call. destruct (prepare_input op input) as [py_in how]. cbn [fst snd].
  split; [|split].
  - destruct how; try reflexivity.
    destruct (py_fn op (callback_args op time py_in)) as [o| |]; try reflexivity.
    pose proof (store_output_length output o) as L.
    destruct (store_output output o). exact L.
  - intros Hn. destruct how; [congruence|reflexivity|reflexivity].
  - intros e He. destruct how; try reflexivity. now rewrite He.
Qed.

Lemma pyfunc_keeps_output_length_witness :
  snd (fst (call {| py_fn := fun _ => Raise TypeError; supply_time := true;
                    supply_input := false; py_input := [] |}
                 (dbl 1 0) [] [dbl 9 0; dbl 8 0]))
  = [dbl 9 0; dbl 8 0].
Proof.
  destruct (pyfunc_keeps_output_length
              {| py_fn := fun _ => Raise TypeError; supply_time := true;
                 supply_input := false; py_input := [] |}
              (dbl 1 0) [] [dbl 9 0; dbl 8 0]) as (_ & _ & H).
  apply (H TypeError). reflexivity.
Defined.

End PyFuncFacts.

(** ** [add_signal] on arrays of more than two dimensions *)
Section HigherRank.

Import Python.

Lemma getitem_subarray n m rest xs i :
  (i < n)%nat ->
  getitem (PyArray {| shape := n :: m :: rest; data := xs |}) i
  = Ok (PyArray {| shape := m :: rest;
                   data := firstn (fold_right Nat.mul 1%nat (m :: rest))
                             (skipn (i * fold_right Nat.mul 1%nat (m :: rest)) xs) |}).
Proof.
  intros Hi. unfold getitem. cbn [shape data].
  apply Nat.ltb_lt in Hi. rewrite Hi. reflexivity.
Qed.

Lemma mapM_nil_rows (n : nat) : forall a,
  mapM (fun _ : nat => @Ok (list dtype) []) (seq a n) = Ok (repeat [] n).
Proof.
  induction n as [|n IH]; intros a; [reflexivity|].
  cbn [seq mapM bind repeat]. now rewrite IH.
Qed.

(** X7. [add_signal] treats every array that is not one-dimensional as a
    matrix of [shape[0]] by [shape[1]] entries [a[i][j]].  For an array of
    three or more dimensions such an entry is itself an array, which does
    not convert to a number: as soon as the first two dimensions are not
    empty, the first entry read raises a Python [TypeError], whatever the
    trailing dimensions are.  When one of the first two dimensions is empty
    no entry is read and the array is accepted as an empty matrix. *)
Theorem add_signal_higher_rank key n0 n1 n2 rest xs :
  ((1 <= n0)%nat -> (1 <= n1)%nat ->
     add_signal key {| shape := n0 :: n1 :: n2 :: rest; data := xs |}
     = Raise TypeError) /\
  (n0 = 0%nat ->
     add_signal key {| shape := n0 :: n1 :: n2 :: rest; data := xs |}
     = Ok (matrix_signal key [])) /\
  (n1 = 0%nat ->
     add_signal key {| shape := n0 :: n1 :: n2 :: rest; data := xs |}
     = Ok (matrix_signal key (repeat [] n0))).
Proof.
  unfold add_signal, ndarray_to_matrix.
  cbn [is_vector ndim shape length Nat.eqb].
  split; [|split].
  - intros H0 H1.
    destruct n0 as [|n0]; [lia|]. destruct n1 as [|n1]; [lia|].
    cbn [seq mapM].
    rewrite getitem_subarray by lia. cbn [bind].
    rewrite getitem_subarray by lia. cbn [bind].
    reflexivity.
  - intros ->. reflexivity.
  - intros ->. cbn [seq mapM]. now rewrite mapM_nil_rows.
Qed.

Lemma add_signal_higher_rank_witness :
  add_signal 7 {| shape := [2; 3; 1]%nat;
                  data := [dbl 1 0; dbl 2 0; dbl 3 0; dbl 4 0; dbl 5 0; dbl 6 0] |}
  = Raise TypeError /\
  add_signal 7 {| shape := [2; 0; 4]%nat; data := [] |}
  = Ok (matrix_signal 7 [[]; []]).
Proof.
  split.
  - destruct (@add_signal_higher_rank 7 2 3 1 []
                [dbl 1 0; dbl 2 0; dbl 3 0; dbl 4 0; dbl 5 0; dbl 6 0])
      as [H _].
    apply H; simpl; lia.
  - destruct (@add_signal_higher_rank 7 2 0 4 [] []) as (_ & _ & H).
    apply H. reflexivity.
Defined.

End HigherRank.

(** ** Probe data on its way to Python *)
Section ProbeToPython.

Import Python PythonProbe.

(** Item assignment in a one-dimensional array. *)
Lemma setitem_vector d i x :
  (i < length d)%nat ->
  setitem (PyArray {| shape := [length d]; data := d |}) i x
  = Ok (PyArray {| shape := [length (firstn i d ++ x :: skipn (S i) d)];
                   data := firstn i d ++ x :: skipn (S i) d |}).
Proof.
  intros Hi. unfold setitem. cbn [shape data fold_right].
  assert (Hlen : length (firstn i d ++ x :: skipn (S i) d) = length d).
  { rewrite length_app, length_firstn. cbn [length]. rewrite length_skipn. lia. }
  rewrite Hlen. apply Nat.ltb_lt in Hi. rewrite Hi.
  rewrite Nat.mul_1_r, Nat.add_1_r. reflexivity.
Qed.

Lemma splice_one (A : Type) (d : list A) : forall i x v,
  (i < length d)%nat ->
  firstn (S i) (firstn i d ++ x :: skipn (S i) d)
  ++ v ++ skipn (i + S (length v)) (firstn i d ++ x :: skipn (S i) d)
  = firstn i d ++ (x :: v) ++ skipn (i + S (length v)) d.
Proof.
  induction d as [|a d IH]; intros i x v Hi; [simpl in Hi; lia|].
  destruct i as [|i].
  - reflexivity.
  - simpl in Hi. cbn [firstn skipn app Nat.add]. f_equal.
    apply (IH i x v). lia.
Qed.

Lemma copy_out_vector v : forall i d,
  (i <= length d)%nat ->
  copy_out (PyArray {| shape := [length d]; data := d |}) i v
  = if (i + length v <=? length d)%nat
    then Ok (PyArray {| shape := [length d];
                        data := firstn i d ++ v ++ skipn (i + length v) d |})
    else Raise IndexError.
Proof.
  induction v as [|x v IH]; intros i d Hi.
  - cbn [copy_out length]. rewrite Nat.add_0_r.
    apply Nat.leb_le in Hi. rewrite Hi. cbn [app]. now rewrite firstn_skipn.
  - cbn [copy_out length].
    destruct (Nat.eq_dec i (length d)) as [->|Hne].
    + replace (length d + S (length v) <=? length d)%nat with false
        by (symmetry; apply Nat.leb_gt; lia).
      unfold setitem. cbn [shape]. rewrite Nat.ltb_irrefl. reflexivity.
    + assert (Hlt : (i < length d)%nat) by lia.
      rewrite setitem_vector by exact Hlt. cbn [bind].
      set (d' := firstn i d ++ x :: skipn (S i) d).
      assert (Hlen : length d' = length d).
      { unfold d'. rewrite length_app, length_firstn. cbn [length].
        rewrite length_skipn. lia. }
      assert (Hi' : (S i <= length d')%nat) by (rewrite Hlen; lia).
      etransitivity; [exact (IH (S i) d' Hi')|]. rewrite Hlen.
      replace (S i + length v)%nat with (i + S (length v))%nat by lia.
      destruct (i + S (length v) <=? length d)%nat; [|reflexivity].
      do 3 f_equal. unfold d'. now apply splice_one.
Qed.

Lemma mapM_raise (A B : Type) (f : A -> result B) (e : py_error) (l : list A) :
  (forall x, In x l -> (exists y, f x = Ok y) \/ f x = Raise e) ->
  (exists x, In x l /\ f x = Raise e) ->
  mapM f l = Raise e.
Proof.
  induction l as [|a l IH]; intros Hall [x [Hin Hx]]; [contradiction|].
  cbn [mapM]. destruct (Hall a (or_introl eq_refl)) as [[y Hy]|Hr].
  - rewrite Hy. cbn [bind]. rewrite IH; [reflexivity| |].
    + intros z Hz. apply Hall. now right.
    + destruct Hin as [->|Hin]; [congruence|]. now exists x.
  - now rewrite Hr.
Qed.

(** X8. [get_probe_data], with a [make_array] that returns a
    one-dimensional array for every size ([arr n] being its contents): when
    every array is at least as long as the sample it is made for, the result
    is the Python list of the arrays, in the order of the samples, each
    holding the sample element for element (the [dtype] values as they are,
    with no narrowing to [float]) followed by what the array held beyond the
    sample; when some array is shorter than its sample, a Python
    [IndexError] propagates. *)
Theorem get_probe_data_copies_samples data make_array arr :
  (forall n, make_array n
             = Ok (PyArray {| shape := [length (arr n)]; data := arr n |})) ->
  ((forall v, In v data -> (length v <= length (arr (length v)))%nat) ->
     get_probe_data data make_array
     = Ok (PyList (map (fun v =>
             PyArray {| shape := [length (arr (length v))];
                        data := v ++ skipn (length v) (arr (length v)) |})
           data))) /\
  ((exists v, In v data /\ (length (arr (length v)) < length v)%nat) ->
     get_probe_data data make_array = Raise IndexError).
Proof.
  intros Hmake.
  assert (Hone : forall v,
             (a <- make_array (length v) ;; copy_out a 0 v)
             = if (length v <=? length (arr (length v)))%nat
               then Ok (PyArray {| shape := [length (arr (length v))];
                                   data := v ++ skipn (length v) (arr (length v)) |})
               else Raise IndexError).
  { intros v. rewrite Hmake. cbn [bind].
    rewrite copy_out_vector by lia. reflexivity. }
  unfold get_probe_data. split.
  - intros Hfit. rewrite mapM_ok with
      (g := fun v => PyArray {| shape := [length (arr (length v))];
                                data := v ++ skipn (length v) (arr (length v)) |});
      [reflexivity|].
    intros v Hv. rewrite Hone.
    specialize (Hfit v Hv). apply Nat.leb_le in Hfit. now rewrite Hfit.
  - intros (v & Hv & Hshort).
    rewrite mapM_raise with (e := IndexError); [reflexivity| |].
    + intros w _. rewrite Hone.
      destruct (length w <=? length (arr (length w)))%nat; [left; eauto|now right].
    + exists v. split; [exact Hv|]. rewrite Hone.
      now replace (length v <=? length (arr (length v)))%nat with false
        by (symmetry; apply Nat.leb_gt; lia).
Qed.

Lemma get_probe_data_copies_samples_witness :
  get_probe_data [[dbl 1 0; S754_finite false 7205759403792794 (-56)]; [dbl 3 0]]
    (fun n => Ok (PyArray {| shape := [length (repeat (S754_zero false) n)];
                             data := repeat (S754_zero false) n |}))
  = Ok (PyList (map (fun v =>
          PyArray {| shape := [length (repeat (S754_zero false) (length v))];
                     data := v ++ skipn (length v)
                                    (repeat (S754_zero false) (length v)) |})
        [[dbl 1 0; S754_finite false 7205759403792794 (-56)]; [dbl 3 0]])).
Proof.
  destruct (@get_probe_data_copies_samples
              [[dbl 1 0; S754_finite false 7205759403792794 (-56)]; [dbl 3 0]]
              (fun n => Ok (PyArray {| shape := [length (repeat (S754_zero false) n)];
                                       data := repeat (S754_zero false) n |}))
              (fun n => repeat (S754_zero false) n)
              (fun n => eq_refl)) as [H _].
  apply H. intros v Hv. rewrite repeat_length. lia.
Defined.

End ProbeToPython.

(** ** The worker on an incomplete stream *)
Section WorkerPartial.

Import Worker.

Lemma build_loop_partial records : forall fuel c p q,
  q <> [] ->
  p ++ q = flat_map encode records ++ [MInt stop_flag] ->
  (length p < fuel)%nat ->
  build_loop fuel c p = Blocked.
Proof.
  induction records as [|r records IH]; intros fuel c p q Hq Hpq Hfuel;
    (destruct fuel as [|fuel]; [lia|]).
  - destruct p as [|m p]; [reflexivity|].
    simpl in Hpq. inversion Hpq as [[Hm Hrest]].
    destruct p; [simpl in Hrest; congruence|discriminate].
  - destruct r as [key lbl data|op_string|probe_key signal_string period];
      cbn [flat_map encode app] in Hpq.
    + destruct p as [|m1 [|m2 [|m3 [|m4 p]]]]; simpl in Hpq; inversion Hpq; subst;
        try reflexivity.
      cbn [build_loop recv_int recv_key recv_string recv_matrix Z.eqb
           add_signal_flag Pos.eqb].
      apply IH with (q := q); auto. simpl in Hfuel. lia.
    + destruct p as [|m1 [|m2 p]]; simpl in Hpq; inversion Hpq; subst;
        try reflexivity.
      cbn [build_loop recv_int recv_key recv_string recv_matrix Z.eqb
           add_signal_flag add_op_flag Pos.eqb].
      apply IH with (q := q); auto. simpl in Hfuel. lia.
    + destruct p as [|m1 [|m2 [|m3 [|m4 p]]]]; simpl in Hpq; inversion Hpq; subst;
        try reflexivity.
      cbn [build_loop recv_int recv_key recv_string recv_matrix Z.eqb
           add_signal_flag add_op_flag add_probe_flag Pos.eqb].
      apply IH with (q := q); auto. simpl in Hfuel. lia.
Qed.

(** X9. The worker acts on whole records only.  Given any proper beginning
    of the stream rank 0 sends (label, time step, records, stop flag), its
    build phase neither finishes nor throws: the worker waits in a receive
    for the message that comes next. *)
Theorem worker_waits_on_partial_stream l d records p q :
  q <> [] ->
  p ++ q = MString l :: MFloat d :: flat_map encode records ++ [MInt stop_flag] ->
  start_worker p = Blocked.
Proof.
  intros Hq Hpq. unfold start_worker.
  destruct p as [|m1 [|m2 p]]; simpl in Hpq; inversion Hpq; subst;
    try reflexivity.
  cbn [recv_string recv_float].
  apply build_loop_partial with (records := records) (q := q); auto.
Qed.

Lemma worker_waits_on_partial_stream_witness :
  start_worker [MString "Chunk 1"; MFloat (flt 1 (-10)); MInt 3; MKey 100]
  = Blocked.
Proof.
  apply (@worker_waits_on_partial_stream "Chunk 1" (flt 1 (-10))
           [add_probe 100 "a" 4]
           [MString "Chunk 1"; MFloat (flt 1 (-10)); MInt 3; MKey 100]
           [MString "a"; MInt 4; MInt 4]).
  - discriminate.
  - reflexivity.
Defined.

End WorkerPartial.

(** ** The simulator's probe data *)
Section SimulatorProbeData.

Import Chunk Simulator.

Lemma lookup_update_same (A : Type) key (v : A) m :
  lookup key (update key v m) = Some v.
Proof.
  induction m as [|[k w] m IH]; simpl.
  - now rewrite Z.eqb_refl.
  - destruct (k =? key) eqn:E; simpl; rewrite E; auto.
Qed.

Lemma lookup_update_other (A : Type) key key' (v : A) m :
  key <> key' -> lookup key' (update key v m) = lookup key' m.
Proof.
  intros Hne. induction m as [|[k w] m IH]; simpl.
  - now replace (key =? key') with false by (symmetry; now apply Z.eqb_neq).
  - destruct (Z.eqb_spec k key) as [->|Hk]; simpl.
    + now replace (key =? key') with false by (symmetry; now apply Z.eqb_neq).
    + now rewrite IH.
Qed.

(** X10. [MpiSimulator::add_probe] on the master chunk gives the probe key
    an empty entry in the simulator's probe data, whatever was gathered
    under that key before; it leaves the entries of the other keys alone and
    counts one more probe for component 0.  A key no probe was added for has
    no entry: [get_probe_data] fails on it. *)
Theorem add_probe_resets_probe_data sim probe_key signal_key period sim' :
  add_probe 0 probe_key signal_key period sim = Some sim' ->
  get_probe_data probe_key sim' = Some [] /\
  (forall key, key <> probe_key ->
     get_probe_data key sim' = get_probe_data key sim) /\
  lookup 0 (probe_counts sim')
  = Some (match lookup 0 (probe_counts sim) with
          | Some k => k + 1
          | None => 1
          end) /\
  (forall n dt key, get_probe_data key (create n dt) = None).
Proof.
  unfold add_probe, get_probe_data. cbn [Z.eqb].
  destruct (lookup signal_key (signal_map (master_chunk sim))) as [data|];
    [|discriminate].
  intros H. inversion H; subst sim'; clear H. cbn [probe_data probe_counts].
  split; [apply lookup_update_same|]. split; [|split].
  - intros key Hne. apply lookup_update_other. congruence.
  - apply lookup_update_same.
  - reflexivity.
Qed.

Lemma add_probe_resets_probe_data_witness :
  get_probe_data 100
    {| num_components := 1;
       master_chunk :=
         Chunk.add_probe 100 (whole 1 (length [S754_zero false])) 1
           (add_base_signal 1 [S754_zero false] (new_chunk (S754_zero false)));
       probe_counts := update 0 (0 + 1) [(0, 0)];
       probe_data := update 100 [] [(100, [[dbl 5 0]])] |}
  = Some [].
Proof.
  apply (@add_probe_resets_probe_data
           {| num_components := 1;
              master_chunk := add_base_signal 1 [S754_zero false]
                                (new_chunk (S754_zero false));
              probe_counts := [(0, 0)];
              probe_data := [(100, [[dbl 5 0]])] |}
           100 1 1).
  reflexivity.
Defined.

Lemma run_step_probe_keys c :
  map fst (probe_map (run_step c)) = map fst (probe_map c).
Proof.
  unfold run_step. destruct (Z.rem (n_steps c + 1) FLUSH_PROBES_EVERY =? 0);
    unfold flush_probes; cbn [probe_map]; now rewrite !map_fst_map_snd.
Qed.

Lemma run_n_steps_probe_keys n : forall c,
  map fst (probe_map (Chunk.run_n_steps n c)) = map fst (probe_map c).
Proof.
  induction n as [|n IH]; intros c; [reflexivity|].
  cbn [Chunk.run_n_steps]. now rewrite IH, run_step_probe_keys.
Qed.

Lemma gather_finds probes : forall data,
  (forall key, In key (map fst probes) -> lookup key data <> None) ->
  exists data',
    gather probes data = Some data' /\
    (forall key, lookup key data <> None -> lookup key data' <> None).
Proof.
  induction probes as [|[key p] probes IH]; intros data Hall.
  - exists data. split; [reflexivity|auto].
  - cbn [gather]. destruct (lookup key data) as [d|] eqn:E.
    + assert (Hkeep : forall k, lookup k data <> None ->
                lookup k (update key (d ++ buffer p) data) <> None).
      { intros k Hk. destruct (Z.eq_dec key k) as [->|Hne].
        - rewrite lookup_update_same. discriminate.
        - now rewrite lookup_update_other. }
      destruct (IH (update key (d ++ buffer p) data)) as (data' & Hg & Hk').
      { intros k Hk. apply Hkeep, Hall. now right. }
      exists data'. split; [exact Hg|]. intros k Hk. apply Hk', Hkeep, Hk.
    + exfalso. apply (Hall key); [now left|exact E].
Qed.

(** Every probe of the master chunk has an entry in the probe data. *)
Lemma built_probe_data sim :
  built sim ->
  num_components sim = 1 /\
  forall key, In key (map fst (probe_map (master_chunk sim))) ->
              lookup key (probe_data sim) <> None.
Proof.
  induction 1 as [dt|sim key data sim' _ [Hn IH] H|sim op sim' _ [Hn IH] H
                 |sim pk sk period sim' _ [Hn IH] H|sim steps sim' _ [Hn IH] H].
  - split; [reflexivity|]. intros key [].
  - unfold add_signal in H. cbn [Z.eqb] in H. inversion H; subst sim'. split; auto.
  - unfold add_op in H. cbn [Z.eqb] in H. inversion H; subst sim'. split; auto.
  - unfold add_probe in H. cbn [Z.eqb] in H.
    destruct (lookup sk (signal_map (master_chunk sim))); [|discriminate].
    inversion H; subst sim'; clear H. split; [exact Hn|].
    cbn [master_chunk probe_data Chunk.add_probe probe_map].
    intros key Hk. rewrite map_app in Hk. apply in_app_or in Hk.
    destruct (Z.eq_dec pk key) as [->|Hne].
    + rewrite lookup_update_same. discriminate.
    + rewrite lookup_update_other by exact Hne.
      destruct Hk as [Hk|[Hk|[]]]; [now apply IH|simpl in Hk; congruence].
  - unfold run_n_steps in H. rewrite Hn in H. cbn [Z.eqb Pos.eqb] in H.
    destruct (@gather_finds (probe_map (Chunk.run_n_steps steps (master_chunk sim)))
                (probe_data sim)) as (data' & Hg & Hk).
    { intros key Hkey. rewrite run_n_steps_probe_keys in Hkey. now apply IH. }
    rewrite Hg in H. inversion H; subst sim'; clear H.
    split; [reflexivity|]. cbn [master_chunk probe_data].
    intros key Hkey. rewrite run_n_steps_probe_keys in Hkey. apply Hk, IH, Hkey.
Qed.

(** X11. On a one-component simulator set up through [add_signal], [add_op]
    and [add_probe], possibly run before, [MpiSimulator::run_n_steps] always
    finds the entry of every probe of the master chunk: the
    [probe_data.at(key)] of its gathering loop does not throw, for any number
    of steps. *)
Theorem run_n_steps_finds_probe_data sim steps :
  built sim -> exists sim', run_n_steps steps sim = Some sim'.
Proof.
  intros Hb. destruct (built_probe_data Hb) as [Hn Hkeys].
  unfold run_n_steps. rewrite Hn. cbn [Z.eqb Pos.eqb].
  destruct (@gather_finds (probe_map (Chunk.run_n_steps steps (master_chunk sim)))
              (probe_data sim)) as (data' & Hg & _).
  { intros key Hkey. rewrite run_n_steps_probe_keys in Hkey. now apply Hkeys. }
  rewrite Hg. eauto.
Qed.

Lemma run_n_steps_finds_probe_data_witness :
  exists sim,
    obind (add_signal 0 1 [dbl 5 0]
             (create 1 (S754_finite false 4611686018427388 (-62))))
          (add_probe 0 100 1 1) = Some sim /\
    map fst (probe_map (master_chunk sim)) = [100] /\
    exists sim', run_n_steps 3 sim = Some sim'.
Proof.
  eexists. split; [reflexivity|]. split; [reflexivity|].
  apply run_n_steps_finds_probe_data.
  apply (@built_add_probe
           (with_chunk (create 1 (S754_finite false 4611686018427388 (-62)))
              (add_base_signal 1 [dbl 5 0]
                 (master_chunk
                    (create 1 (S754_finite false 4611686018427388 (-62))))))
           100 1 1); [|reflexivity].
  apply (@built_add_signal
           (create 1 (S754_finite false 4611686018427388 (-62)))
           1 [dbl 5 0]); [|reflexivity].
  apply built_create.
Defined.

End SimulatorProbeData.

(** ** The name of the log file *)
Section LogFilename.

Import Master.
Local Open Scope string_scope.

Lemma find_last_of_absent c s : contains c s = false -> find_last_of c s = None.
Proof.
  induction s as [|a s IH]; simpl; [reflexivity|].
  intros H. apply orb_false_iff in H as [Ha Hs]. now rewrite IH, Ha.
Qed.

Lemma find_last_of_last c base ext :
  contains c ext = false ->
  find_last_of c (base ++ String c ext) = Some (String.length base).
Proof.
  intros H. induction base as [|a base IH]; simpl.
  - now rewrite find_last_of_absent, Ascii.eqb_refl.
  - now rewrite IH.
Qed.

Lemma substring_prefix base rest :
  substring 0 (String.length base) (base ++ rest) = base.
Proof.
  induction base as [|a base IH]; simpl.
  - destruct rest; reflexivity.
  - now rewrite IH.
Qed.

(** X12. Without the [--log] option, the log file is named after the
    network file with everything from its last '.' on replaced by ".h5";
    a name without any '.' just gets ".h5" appended.  The last '.' counts
    wherever it stands: for "./net" the name is ".h5", for "run.1/net" it is
    "run.h5". *)
Theorem default_log_filename_replaces_extension base ext :
  contains "." ext = false ->
  log_filename None (base ++ String "." ext) = base ++ ".h5" /\
  log_filename None ext = ext ++ ".h5".
Proof.
  intros H. unfold log_filename, default_log_filename. split.
  - rewrite find_last_of_last by exact H. cbn [substr_to].
    now rewrite substring_prefix.
  - now rewrite find_last_of_absent.
Qed.

Lemma default_log_filename_replaces_extension_witness :
  log_filename None ("run" ++ String "." "1/net") = "run" ++ ".h5" /\
  log_filename None "1/net" = "1/net" ++ ".h5".
Proof.
  apply (@default_log_filename_replaces_extension "run" "1/net").
  reflexivity.
Defined.

End LogFilename.
